(** * IncrementExplain: reservoir storage, incremental SAGE and marginal imputation

    A shallow embedding of
      - [storage/uniform_reservoir_storage.py]   (module [UniformReservoirStorage]),
      - [increment_explain/explainer/sage.py]    (module [Sage]),
      - [increment_explain/imputer/marginal_imputer.py] (module [MarginalImputer]).

    Python numbers are modelled by exact rationals ([Q]); a Python [dict]
    with string keys by [gmap string _]; a call into code that the modelled
    function does not define itself (the random generators, the model, the
    sampler and tracker objects) is an event of an interaction tree. *)

From Stdlib Require Import ZArith QArith Qabs Qpower Lia List.
From stdpp Require Import base option list functions gmap strings.

Open Scope Z_scope.

(** ** Python exceptions and results *)

Inductive exn : Type :=
| ValueError
| IndexError
| KeyError
| AssertionError
| ZeroDivisionError
| InvalidReference.   (* a reference to no object: no Python state has one *)

Inductive result (A : Type) : Type :=
| OK (a : A)
| Exn (e : exn).
Arguments OK {A} a.
Arguments Exn {A} e.

Definition is_ok {A} (r : result A) : bool :=
  match r with OK _ => true | Exn _ => false end.

(** ** Programs: finite interaction trees over an event signature *)

Inductive prog (E : Type -> Type) (A : Type) : Type :=
| Ret (a : A)
| Vis {X : Type} (e : E X) (k : X -> prog E A).
Arguments Ret {E A} a.
Arguments Vis {E A X} e k.

Fixpoint bind {E A B} (t : prog E A) (f : A -> prog E B) : prog E B :=
  match t with
  | Ret a => f a
  | Vis e k => Vis e (fun x => bind (k x) f)
  end.

Definition trigger {E X} (e : E X) : prog E X := Vis e Ret.

Notation "'do' x <- t 'in' f" := (bind t (fun x => f))
  (at level 10, x pattern, t at level 100, f at level 200,
   format "'[v' 'do'  x  <-  t  'in'  '/' f ']'").
Notation "'run' t 'in' f" := (bind t (fun _ => f))
  (at level 10, t at level 100, f at level 200,
   format "'[v' 'run'  t  'in'  '/' f ']'").

(** One observed call: the event and the answer it got. *)
Inductive event (E : Type -> Type) : Type :=
| Ev {X : Type} (e : E X) (x : X).
Arguments Ev {E X} e x.

(** [runs ok t tr a]: [t] can run to the result [a], the environment
    answering every call with a value that [ok] allows; [tr] lists the
    calls in order. *)
Fixpoint runs {E A} (ok : forall X, E X -> X -> Prop)
    (t : prog E A) (tr : list (event E)) (a : A) : Prop :=
  match t with
  | Ret a' => tr = [] /\ a = a'
  | Vis e k => exists x tr', ok _ e x /\ tr = Ev e x :: tr' /\ runs ok (k x) tr' a
  end.

(** A deterministic environment: a handler over a world [W]. *)
Fixpoint interp {E W A} (h : forall X, E X -> W -> X * W)
    (t : prog E A) (w : W) : A * W * list (event E) :=
  match t with
  | Ret a => (a, w, [])
  | Vis e k =>
      let '(x, w1) := h _ e w in
      let '(a, w2, tr) := interp h (k x) w1 in
      (a, w2, Ev e x :: tr)
  end.

(** ** Python list assignment [l[i] = x] *)

Definition setitem {A} (l : list A) (i : Z) (x : A) : result (list A) :=
  let n := Z.of_nat (length l) in
  if (0 <=? i) && (i <? n) then OK (<[Z.to_nat i := x]> l)
  else if (- n <=? i) && (i <? 0) then OK (<[Z.to_nat (n + i) := x]> l)
  else Exn IndexError.

(** ** storage/uniform_reservoir_storage.py *)

Module UniformReservoirStorage.

(** Calls into Python's global [random] module. *)
Inductive randE : Type -> Type :=
| RandInt (a b : Z) : randE Z
| RandRange (n : Z) : randE Z.

(** The values the generator can answer with. *)
Definition in_range (X : Type) (e : randE X) : X -> Prop :=
  match e in randE X return X -> Prop with
  | RandInt a b => fun r => a <= r <= b
  | RandRange n => fun r => 0 <= r < n
  end.

Definition support {X : Type} (e : randE X) : list X :=
  match e in randE X return list X with
  | RandInt a b => seqZ a (b - a + 1)
  | RandRange n => seqZ 0 n
  end.

(** [random.randint(a, b)]: ValueError on an empty range. *)
Definition randint (a b : Z) : prog randE (result Z) :=
  if b <? a then Ret (Exn ValueError)
  else do r <- trigger (RandInt a b) in Ret (OK r).

(** [random.randrange(n)]: ValueError unless [0 < n]. *)
Definition randrange (n : Z) : prog randE (result Z) :=
  if n <=? 0 then Ret (Exn ValueError)
  else do r <- trigger (RandRange n) in Ret (OK r).

Section Storage.
Context {X Y : Type}.

(** The attributes of the object: [size] and [store_targets] are set by
    [ReservoirStorage.__init__], the two lists by [BaseStorage.__init__]. *)
Record t : Type := Build {
  size : Z;
  store_targets : bool;
  _storage_x : list X;
  _storage_y : list Y
}.

Definition __init__ (store_targets : bool) (size : Z) : t :=
  Build size store_targets [] [].

Definition __len__ (self : t) : Z := Z.of_nat (length (_storage_x self)).

Definition get_data (self : t) : list X * list Y :=
  (_storage_x self, _storage_y self).

(** [update]: the object after the call and whether the call raised. *)
Definition update (self : t) (x : X) (y : Y) : prog randE (t * result unit) :=
  if Z.of_nat (length (_storage_x self)) <? size self then
    let self1 :=
      Build (size self) (store_targets self) (_storage_x self ++ [x]) (_storage_y self) in
    if store_targets self1 then
      Ret (Build (size self1) (store_targets self1) (_storage_x self1)
                 (_storage_y self1 ++ [y]), OK tt)
    else Ret (self1, OK tt)
  else
    do r <- randint 1 (Z.of_nat (length (_storage_x self))) in
    match r with
    | Exn e => Ret (self, Exn e)
    | OK random_integer =>
        if random_integer <=? size self then
          do j <- randrange (size self) in
          match j with
          | Exn e => Ret (self, Exn e)
          | OK rand_idx =>
              match setitem (_storage_x self) rand_idx x with
              | Exn e => Ret (self, Exn e)
              | OK sx =>
                  let self1 :=
                    Build (size self) (store_targets self) sx (_storage_y self) in
                  if store_targets self1 then
                    match setitem (_storage_y self1) rand_idx y with
                    | Exn e => Ret (self1, Exn e)
                    | OK sy =>
                        Ret (Build (size self1) (store_targets self1)
                                   (_storage_x self1) sy, OK tt)
                    end
                  else Ret (self1, OK tt)
              end
          end
        else Ret (self, OK tt)
    end.

(** The stores a caller can hold: built by [__init__], then any number
    of [update] calls, whatever the generator answers. *)
Inductive reachable (st : bool) (sz : Z) : nat -> t -> Prop :=
| reach_init : reachable st sz 0 (__init__ st sz)
| reach_update n self x y tr self' r :
    reachable st sz n self ->
    runs in_range (update self x y) tr (self', r) ->
    reachable st sz (S n) self'.

(** Offer the items one after the other (a raising call leaves the
    object as the call left it and the caller goes on). *)
Fixpoint update_all (self : t) (items : list (X * Y)) : prog randE t :=
  match items with
  | [] => Ret self
  | (x, y) :: rest =>
      do sr <- update self x y in
      update_all sr.1 rest
  end.

(** What every [update] keeps: the configuration, the capacity bound
    and the alignment of the two lists. *)
Definition store_inv (st : bool) (sz : Z) (self : t) : Prop :=
  size self = sz /\ store_targets self = st /\
  Z.of_nat (length (_storage_x self)) <= sz /\
  (st = true -> length (_storage_y self) = length (_storage_x self)).

End Storage.
Arguments t : clear implicits.

(** The distribution of the result when every draw is uniform on its
    range: outcomes with their probabilities. *)
Fixpoint dist {A} (t : prog randE A) : list (Q * A) :=
  match t with
  | Ret a => [(1%Q, a)]
  | Vis e k =>
      let vals := support e in
      let w := (1 / inject_Z (Z.of_nat (length vals)))%Q in
      flat_map (fun x => map (fun pa => ((w * pa.1)%Q, pa.2)) (dist (k x))) vals
  end.

Definition pr {A} (P : A -> bool) (d : list (Q * A)) : Q :=
  fold_right (fun pa acc => if P pa.2 then (pa.1 + acc)%Q else acc) 0%Q d.

(** The bounds of the admission draw, when the call starts with one. *)
Definition admission_draw {A} (t : prog randE A) : option (Z * Z) :=
  match t with
  | Vis e _ =>
      match e with
      | RandInt a b => Some (a, b)
      | RandRange _ => None
      end
  | Ret _ => None
  end.

End UniformReservoirStorage.

(** Small streams on which the store is evaluated below. *)

Definition holds (x : string) (s : UniformReservoirStorage.t string unit) : bool :=
  bool_decide (x ∈ UniformReservoirStorage._storage_x s).

(** The store of capacity 1 after [update("a")], [update("b")], and the
    store of capacity 2 after [update("a")], [update("b")], [update("c")]. *)
Definition after_ab : prog UniformReservoirStorage.randE (UniformReservoirStorage.t string unit) :=
  UniformReservoirStorage.update_all (UniformReservoirStorage.__init__ false 1)
    [("a"%string, tt); ("b"%string, tt)].

Definition after_abc : prog UniformReservoirStorage.randE (UniformReservoirStorage.t string unit) :=
  UniformReservoirStorage.update_all (UniformReservoirStorage.__init__ false 2)
    [("a"%string, tt); ("b"%string, tt); ("c"%string, tt)].


(** ** utils/trackers.py *)

Module ExponentialSmoothingTracker.

(** Modelled from the spec: [utils/trackers.py] is not among the sources.
    The exponential-smoothing tracker starts at 0; its first [update]
    sets the estimate to the value, every later one moves the estimate
    by [alpha * (value - estimate)]; calling the tracker, or reading
    [tracked_value], gives the estimate. *)
Record t : Type := Build {
  alpha : Q;
  tracked_value : Q;
  initialized : bool
}.

(** Modelled from the spec: a new tracker, estimate 0, not yet
    initialized. *)
Definition __init__ (alpha : Q) : t := Build alpha 0%Q false.

(** Modelled from the spec: [update(value)]. *)
Definition update (self : t) (value : Q) : t :=
  if initialized self then
    Build (alpha self)
          (tracked_value self + alpha self * (value - tracked_value self))%Q true
  else Build (alpha self) value true.

(** Modelled from the spec: the call [tracker()] gives the estimate. *)
Definition __call__ (self : t) : Q := tracked_value self.

End ExponentialSmoothingTracker.

(** ** increment_explain/explainer/sage.py *)

Module Sage.

(** A feature vector: feature name to value. *)
Abbreviation dict := (gmap string Q).

Definition mae_loss (y_true y_prediction : Q) : Q :=
  Qabs (y_true - y_prediction).

Definition mse_loss (y_true y_prediction : Q) : Q :=
  ((y_true - y_prediction) ^ 2)%Q.

(** The tracker objects an estimator owns. *)
Inductive tracker_ref : Type :=
| MarginalPrediction
| SAGETracker (feature_name : string)
| PFITracker (feature_name : string).

Global Instance tracker_ref_eq_dec : EqDecision tracker_ref.
Proof. solve_decision. Defined.

(** The calls [IncrementalSAGE] makes into objects defined elsewhere:
    numpy's global generator, the sampler, the model (the answer of
    [ModelFn x] is what [self.model_fn(x)[0]] evaluates to) and the
    trackers. *)
Inductive sageE : Type -> Type :=
| NpRandomPermutation (l : list string) : sageE (list string)
| SamplerUpdate (x : dict) (y : Q) : sageE unit
| SamplerSample (k : Z) : sageE (list dict)
| ModelFn (x : dict) : sageE (result Q)
| TrackerUpdate (t : tracker_ref) (v : Q) : sageE unit
| TrackerCall (t : tracker_ref) : sageE Q
| TrackerValue (t : tracker_ref) : sageE Q.

(** Any answer at all. *)
Definition any_answer (X : Type) (e : sageE X) (x : X) : Prop := True.

(** Sequencing that stops at the first exception. *)
Definition bind_result {A B} (t : prog sageE (result A))
    (f : A -> prog sageE (result B)) : prog sageE (result B) :=
  do r <- t in
  match r with
  | OK a => f a
  | Exn e => Ret (Exn e)
  end.

Notation "'try' x <- t 'in' f" := (bind_result t (fun x => f))
  (at level 10, x pattern, t at level 100, f at level 200,
   format "'[v' 'try'  x  <-  t  'in'  '/' f ']'").

Record IncrementalSAGE : Type := Build {
  feature_names : list string;
  random_state : option Z;
  number_of_features : nat;
  seen_samples : Z;
  loss_function : Q -> Q -> Q;
  default_values : option dict;
  sub_sample_size : Z;
  marginal_prediction : tracker_ref;
  SAGE_trackers : gmap string tracker_ref;
  pfi_trackers : gmap string tracker_ref
}.

Definition set_seen_samples (self : IncrementalSAGE) (n : Z) : IncrementalSAGE :=
  Build (feature_names self) (random_state self) (number_of_features self) n
        (loss_function self) (default_values self) (sub_sample_size self)
        (marginal_prediction self) (SAGE_trackers self) (pfi_trackers self).

(** [{feature: default_values[i] for feature, i in zip(feature_names,
    range(len(feature_names)))}], the pairs taken in order. *)
Fixpoint defaults_dict (pairs : list (string * nat)) (default_values : list Q)
    (acc : dict) : result dict :=
  match pairs with
  | [] => OK acc
  | (feature, i) :: rest =>
      match default_values !! i with
      | None => Exn IndexError
      | Some v => defaults_dict rest default_values (<[feature := v]> acc)
      end
  end.

Definition trackers_dict (mk : string -> tracker_ref) (feature_names : list string)
    : gmap string tracker_ref :=
  foldl (fun acc feature_name => <[feature_name := mk feature_name]> acc) ∅ feature_names.

Definition __init__ (feature_names : list string) (loss_function : string)
    (random_state : option Z) (sub_sample_size : Z)
    (default_values : option (list Q)) : result IncrementalSAGE :=
  let number_of_features := length feature_names in
  let seen_samples := 0 in
  if negb (bool_decide (loss_function ∈ ["mae"; "mse"]%string)) then Exn AssertionError
  else
    let loss := if bool_decide (loss_function = "mae"%string) then mae_loss else mse_loss in
    let finish (defaults : option dict) :=
      OK (Build feature_names random_state number_of_features seen_samples loss
                defaults sub_sample_size MarginalPrediction
                (trackers_dict SAGETracker feature_names)
                (trackers_dict PFITracker feature_names)) in
    match default_values with
    | None => finish None
    | Some default_values =>
        match defaults_dict (zip feature_names (seq 0 (length feature_names)))
                            default_values ∅ with
        | Exn e => Exn e
        | OK d => finish (Some d)
        end
    end.

(** The property [SAGE_values]. *)
Fixpoint SAGE_values_from (self : IncrementalSAGE) (names : list string)
    (acc : gmap string Q) : prog sageE (result (gmap string Q)) :=
  match names with
  | [] => Ret (OK acc)
  | feature_name :: rest =>
      match SAGE_trackers self !! feature_name with
      | None => Ret (Exn KeyError)
      | Some t =>
          do v <- trigger (TrackerValue t) in
          SAGE_values_from self rest (<[feature_name := v]> acc)
      end
  end.

Definition SAGE_values (self : IncrementalSAGE) : prog sageE (result (gmap string Q)) :=
  SAGE_values_from self (feature_names self) ∅.

Definition _update_sampler (x : dict) (y : Q) : prog sageE unit :=
  trigger (SamplerUpdate x y).

(** [while k < min(self.sub_sample_size, len(x_marginals))]: the loop
    leaves [k] and [y]. [fuel] bounds the number of iterations; the loop
    adds 1 to [k] each time, so [bound - k] iterations are enough
    ([averaged_prediction] gives [bound] for [k = 0]). *)
Fixpoint while_loop (fuel : nat) (bound : Z) (x_marginals : list dict) (x_S : dict)
    (k : Z) (y : Q) : prog sageE (result (Z * Q)) :=
  if k <? bound then
    match fuel with
    | O => Ret (OK (k, y))
    | S fuel' =>
        match x_marginals !! Z.to_nat k with
        | None => Ret (Exn IndexError)
        | Some x_k =>
            let x_marginal := x_S ∪ x_k in
            try p <- trigger (ModelFn x_marginal) in
            while_loop fuel' bound x_marginals x_S (k + 1) (y + p)%Q
        end
    end
  else Ret (OK (k, y)).

(** Lines 139-144: the prediction averaged over the drawn samples. *)
Definition averaged_prediction (self : IncrementalSAGE) (x_marginals : list dict)
    (x_S : dict) : prog sageE (result Q) :=
  let bound := Z.min (sub_sample_size self) (Z.of_nat (length x_marginals)) in
  try ky <- while_loop (Z.to_nat bound) bound x_marginals x_S 0 0%Q in
  if ky.1 =? 0 then Ret (Exn ZeroDivisionError)
  else Ret (OK (ky.2 / inject_Z ky.1)%Q).

(** Lines 135-138: the background samples of one step. *)
Definition draw_marginals (self : IncrementalSAGE) (k : Z) : prog sageE (list dict) :=
  match default_values self with
  | None => trigger (SamplerSample k)
  | Some d => Ret (replicate (Z.to_nat k) d)
  end.

(** Lines 132-148: the walk along the permutation; the result is
    [sample_loss] when the loop ends. *)
Fixpoint sweep (self : IncrementalSAGE) (x_i : dict) (y_i : Q)
    (permutation_chain : list string) (x_S : dict) (sample_loss : Q)
    : prog sageE (result Q) :=
  match permutation_chain with
  | [] => Ret (OK sample_loss)
  | feature :: rest =>
      match x_i !! feature with
      | None => Ret (Exn KeyError)
      | Some v =>
          let x_S := <[feature := v]> x_S in
          do x_marginals <- draw_marginals self (sub_sample_size self) in
          try y <- averaged_prediction self x_marginals x_S in
          let feature_loss := loss_function self y_i y in
          let marginal_contribution := (sample_loss - feature_loss)%Q in
          match SAGE_trackers self !! feature with
          | None => Ret (Exn KeyError)
          | Some t =>
              run trigger (TrackerUpdate t marginal_contribution) in
              sweep self x_i y_i rest x_S feature_loss
          end
      end
  end.

(** Lines 123-148; the result is [sample_loss] when the loop ends. *)
Definition contributions (self : IncrementalSAGE) (x_i : dict) (y_i : Q)
    : prog sageE (result Q) :=
  do permutation_chain <- trigger (NpRandomPermutation (feature_names self)) in
  do x_marginal <- match default_values self with
                   | None => trigger (SamplerSample 1)
                   | Some d => Ret [d]
                   end in
  match x_marginal !! 0%nat with
  | None => Ret (Exn IndexError)
  | Some x_0 =>
      try marginal_prediction_value <- trigger (ModelFn x_0) in
      run trigger (TrackerUpdate (marginal_prediction self) marginal_prediction_value) in
      do smoothed <- trigger (TrackerCall (marginal_prediction self)) in
      let sample_loss := loss_function self y_i smoothed in
      sweep self x_i y_i permutation_chain ∅ sample_loss
  end.

(** Lines 149-152, also the end of the warm-up branch. *)
Definition finish (self : IncrementalSAGE) (x_i : dict) (y_i : Q)
    : prog sageE (IncrementalSAGE * result (gmap string Q)) :=
  let self := set_seen_samples self (seen_samples self + 1) in
  run match default_values self with
      | None => _update_sampler x_i y_i
      | Some _ => Ret tt
      end in
  do values <- SAGE_values self in
  Ret (self, values).

(** [explain_one]: the estimator after the call, and the snapshot or
    the exception. *)
Definition explain_one (self : IncrementalSAGE) (x_i : dict) (y_i : Q)
    : prog sageE (IncrementalSAGE * result (gmap string Q)) :=
  if seen_samples self <? 1 then finish self x_i y_i
  else
    do r <- contributions self x_i y_i in
    match r with
    | Exn e => Ret (self, Exn e)
    | OK _ => finish self x_i y_i
    end.

End Sage.

(** ** The estimator in its environment *)

Module SageEnv.
Import Sage.

(** One assignment [acc[feature] = value]. *)
Definition put (acc : dict) (fv : string * Q) : dict := <[fv.1 := fv.2]> acc.

(** What a run shows of the calls made. *)
Definition is_model_call (ev : event sageE) : bool :=
  match ev with
  | Ev e _ => match e with ModelFn _ => true | _ => false end
  end.

Definition model_inputs (ev : event sageE) : list dict :=
  match ev with
  | Ev e _ => match e with ModelFn x => [x] | _ => [] end
  end.

(** The model answers of a run that are exceptions. *)
Definition model_raised (ev : event sageE) : bool :=
  match ev with
  | Ev e x =>
      match e in sageE X return X -> bool with
      | ModelFn _ => fun r => negb (is_ok r)
      | _ => fun _ => false
      end x
  end.

(** The predictions the model returned. *)
Definition model_outputs (ev : event sageE) : list Q :=
  match ev with
  | Ev e x =>
      match e in sageE X return X -> list Q with
      | ModelFn _ => fun r => match r with OK v => [v] | Exn _ => [] end
      | _ => fun _ => []
      end x
  end.

Definition sampler_calls (ev : event sageE) : list (dict * Q + Z) :=
  match ev with
  | Ev e _ =>
      match e with
      | SamplerUpdate x y => [inl (x, y)]
      | SamplerSample k => [inr k]
      | _ => []
      end
  end.

Definition is_sampler_call {X : Type} (e : sageE X) : bool :=
  match e with
  | SamplerUpdate _ _ | SamplerSample _ => true
  | _ => false
  end.

(** Two estimators that differ at most in [random_state], both with
    fixed default values. *)
Definition same_but_seed (s1 s2 : IncrementalSAGE) : Prop :=
  feature_names s1 = feature_names s2 /\
  seen_samples s1 = seen_samples s2 /\
  loss_function s1 = loss_function s2 /\
  default_values s1 = default_values s2 /\
  is_Some (default_values s1) /\
  sub_sample_size s1 = sub_sample_size s2 /\
  marginal_prediction s1 = marginal_prediction s2 /\
  SAGE_trackers s1 = SAGE_trackers s2.

(** The estimators after a call are still alike and the snapshots
    (or exceptions) are equal. *)
Definition alike (p1 p2 : IncrementalSAGE * result (gmap string Q)) : Prop :=
  same_but_seed p1.1 p2.1 /\ p1.2 = p2.2.

(** The values handed to [update] of a tracker, with the tracker. *)
Definition tracker_updates (ev : event sageE) : list (tracker_ref * Q) :=
  match ev with
  | Ev e _ => match e with TrackerUpdate t v => [(t, v)] | _ => [] end
  end.

Definition fed (tr : list (event sageE)) : list (tracker_ref * Q) :=
  flat_map tracker_updates tr.


Section World.
(** The state of numpy's global generator and of the sampler, with
    the operations the estimator calls on them, and the model. *)
Context {G Smp : Type}.
Variable permutation : G -> list string -> list string * G.
Variable sampler_update : Smp -> dict -> Q -> Smp.
Variable sampler_sample : Smp -> Z -> list dict * Smp.
Variable model_fn : dict -> result Q.

Record world : Type := World {
  np_random : G;
  sampler : Smp;
  trackers : tracker_ref -> ExponentialSmoothingTracker.t
}.

(** The trackers as [IncrementalSAGE.__init__] creates them. *)
Definition fresh_trackers : tracker_ref -> ExponentialSmoothingTracker.t :=
  fun _ => ExponentialSmoothingTracker.__init__ (5 # 1000).

Definition handle (X : Type) (e : sageE X) (w : world) : X * world :=
  match e in sageE X return X * world with
  | NpRandomPermutation l =>
      let pg := permutation (np_random w) l in
      (pg.1, World pg.2 (sampler w) (trackers w))
  | SamplerUpdate x y =>
      (tt, World (np_random w) (sampler_update (sampler w) x y) (trackers w))
  | SamplerSample k =>
      let xs := sampler_sample (sampler w) k in
      (xs.1, World (np_random w) xs.2 (trackers w))
  | ModelFn x => (model_fn x, w)
  | TrackerUpdate t v =>
      (tt, World (np_random w) (sampler w)
                 (<[t := ExponentialSmoothingTracker.update (trackers w t) v]> (trackers w)))
  | TrackerCall t => (ExponentialSmoothingTracker.__call__ (trackers w t), w)
  | TrackerValue t => (ExponentialSmoothingTracker.tracked_value (trackers w t), w)
  end.

(** Two worlds with numpy's generator in the same state and trackers
    in the same states. *)
Definition same_but_sampler (w1 w2 : world) : Prop :=
  np_random w1 = np_random w2 /\ trackers w1 = trackers w2.

(** Two runs that end with related results in such worlds. *)
Definition agree {A} (R : A -> A -> Prop)
    (r1 r2 : A * world * list (event sageE)) : Prop :=
  R r1.1.1 r2.1.1 /\ same_but_sampler r1.1.2 r2.1.2.

(** Feed the examples in order; the snapshots (or exceptions) of the
    calls, the estimator and the world at the end. *)
Fixpoint explain_all (self : IncrementalSAGE) (w : world) (examples : list (dict * Q))
    : list (result (gmap string Q)) * IncrementalSAGE * world :=
  match examples with
  | [] => ([], self, w)
  | (x_i, y_i) :: rest =>
      let '(sr, w1, _) := interp handle (explain_one self x_i y_i) w in
      let '(snaps, self2, w2) := explain_all sr.1 w1 rest in
      (sr.2 :: snaps, self2, w2)
  end.

End World.

End SageEnv.

(** ** A small environment on which the estimator is evaluated *)

Module SageExample.
Import Sage SageEnv.

(** A generator whose successive draws differ: the list as it is, then
    reversed, and so on. *)
Definition permutation (g : nat) (l : list string) : list string * nat :=
  (if Nat.even g then l else reverse l, S g).

(** A sampler that keeps what it is given and returns the first [k]
    stored vectors, or all of them when fewer are stored. *)
Definition sampler_update (s : list dict) (x : dict) (y : Q) : list dict := s ++ [x].

Definition sampler_sample (s : list dict) (k : Z) : list dict * list dict :=
  (take (Z.to_nat k) s, s).

(** The model [x['a'] * x['b']]. *)
Definition model_fn (x : dict) : result Q :=
  match x !! "a"%string, x !! "b"%string with
  | Some a, Some b => OK (a * b)%Q
  | _, _ => Exn KeyError
  end.

Definition handler := handle permutation sampler_update sampler_sample model_fn.

Definition initial_world (g : nat) : @world nat (list dict) :=
  World g [] fresh_trackers.

Definition x_11 : dict := <["b"%string := 1%Q]> (<["a"%string := 1%Q]> ∅).
Definition x_00 : dict := <["b"%string := 0%Q]> (<["a"%string := 0%Q]> ∅).
Definition x_22 : dict := <["b"%string := 2%Q]> (<["a"%string := 2%Q]> ∅).

Definition examples : list (dict * Q) := [(x_11, 1%Q); (x_11, 1%Q)].

(** [IncrementalSAGE(model_fn, feature_names=['a', 'b'])]. *)
Definition sampling_estimator : IncrementalSAGE :=
  Build ["a"; "b"]%string None 2 0 mse_loss None 1 MarginalPrediction
        (trackers_dict SAGETracker ["a"; "b"]%string)
        (trackers_dict PFITracker ["a"; "b"]%string).

(** [IncrementalSAGE(model_fn, feature_names=['a', 'b'], random_state=7,
    default_values=[0, 0])]. *)
Definition default_estimator : IncrementalSAGE :=
  Build ["a"; "b"]%string (Some 7) 2 0 mse_loss (Some x_00) 1 MarginalPrediction
        (trackers_dict SAGETracker ["a"; "b"]%string)
        (trackers_dict PFITracker ["a"; "b"]%string).

(** The same with [random_state=8]. *)
Definition other_seed_estimator : IncrementalSAGE :=
  Build ["a"; "b"]%string (Some 8) 2 0 mse_loss (Some x_00) 1 MarginalPrediction
        (trackers_dict SAGETracker ["a"; "b"]%string)
        (trackers_dict PFITracker ["a"; "b"]%string).

(** The sampling estimator asked for three samples per step, past its
    warm-up. *)
Definition three_sample_estimator : IncrementalSAGE :=
  Build ["a"; "b"]%string None 2 1 mse_loss None 3 MarginalPrediction
        (trackers_dict SAGETracker ["a"; "b"]%string)
        (trackers_dict PFITracker ["a"; "b"]%string).

(** The value of feature [f] in the [i]-th snapshot of a run. *)
Definition snapshot_value (snaps : list (result (gmap string Q))) (i : nat) (f : string)
    : option Q :=
  match snaps !! i with
  | Some (OK snapshot) => snapshot !! f
  | _ => None
  end.

(** Two estimators built alike, with the same [random_state], and fed
    the same examples one after the other in one process: the second
    starts where the first left numpy's generator. *)
Definition first_run :=
  explain_all permutation sampler_update sampler_sample model_fn
    default_estimator (initial_world 0) examples.

Definition second_run :=
  explain_all permutation sampler_update sampler_sample model_fn
    default_estimator (World (np_random first_run.2) [] fresh_trackers) examples.

End SageExample.

(** ** increment_explain/imputer/marginal_imputer.py *)

Module MarginalImputer.

(** Dict objects live in a heap and are passed by reference: the caller's
    [x_i] and the entries of the storage's [_storage_x] are references. *)
Abbreviation dict := (gmap string Q).
Abbreviation loc := positive.
Abbreviation heap := (gmap loc dict).

(** Calls into Python's global [random] module and into the model.
    [model.predict_one] is handed a dict object: the answer is the
    content it leaves in that object, and the prediction or exception. *)
Inductive impE : Type -> Type :=
| RandRange (n : Z) : impE Z
| PredictOne (x : dict) : impE (dict * result Q).

Definition any_answer (X : Type) (e : impE X) (x : X) : Prop := True.

(** Computations on the heap that may raise; the heap is kept as the
    raising statement left it. *)
Definition M (A : Type) : Type := heap -> prog impE (heap * result A).

Definition ret {A} (a : A) : M A := fun h => Ret (h, OK a).

Definition raise {A} (e : exn) : M A := fun h => Ret (h, Exn e).

Definition bindM {A B} (m : M A) (f : A -> M B) : M B :=
  fun h =>
    do hr <- m h in
    match hr.2 with
    | OK a => f a hr.1
    | Exn e => Ret (hr.1, Exn e)
    end.

Notation "'let*' x := m 'in' f" := (bindM m (fun x => f))
  (at level 10, x pattern, m at level 100, f at level 200,
   format "'[v' 'let*'  x  :=  m  'in'  '/' f ']'").

(** [random.randrange(n)] *)
Definition randrange (n : Z) : M Z :=
  fun h =>
    if n <=? 0 then Ret (h, Exn ValueError)
    else do r <- trigger (RandRange n) in Ret (h, OK r).

(** [d.copy()]: a new object with the content of [d]. *)
Definition copy (d : loc) : M loc :=
  fun h =>
    match h !! d with
    | None => Ret (h, Exn InvalidReference)
    | Some content =>
        let d' := fresh (dom h) in
        Ret (<[d' := content]> h, OK d')
    end.

(** [d[key]] *)
Definition getitem (d : loc) (key : string) : M Q :=
  fun h =>
    match h !! d with
    | None => Ret (h, Exn InvalidReference)
    | Some content =>
        match content !! key with
        | None => Ret (h, Exn KeyError)
        | Some v => Ret (h, OK v)
        end
    end.

(** [d[key] = v] *)
Definition setitem_dict (d : loc) (key : string) (v : Q) : M unit :=
  fun h =>
    match h !! d with
    | None => Ret (h, Exn InvalidReference)
    | Some content => Ret (<[d := <[key := v]> content]> h, OK tt)
    end.

(** [self.model.predict_one(d)] *)
Definition predict_one (d : loc) : M Q :=
  fun h =>
    match h !! d with
    | None => Ret (h, Exn InvalidReference)
    | Some content =>
        do answer <- trigger (PredictOne content) in
        Ret (<[d := answer.1]> h, answer.2)
    end.

(** [features[rand_idx]] for the index [random.randrange] gave. *)
Definition index (features : list loc) (rand_idx : Z) : M loc :=
  if (0 <=? rand_idx) && (rand_idx <? Z.of_nat (length features)) then
    match features !! Z.to_nat rand_idx with
    | Some d => ret d
    | None => raise IndexError
    end
  else raise IndexError.

(** storage/base_storage.py: the storage holds references. *)
Record BaseStorage : Type := Storage {
  _storage_x : list loc;
  _storage_y : list Q
}.

Definition get_data (self : BaseStorage) : list loc * list Q :=
  (_storage_x self, _storage_y self).

Record t : Type := Build {
  sampling_strategy : string;
  storage_object : BaseStorage
}.

(** [{feature_name: sampled_instance[feature_name] for feature_name in
    feature_subset}] *)
Fixpoint project (sampled_instance : loc) (feature_subset : list string)
    (sampled_features : dict) : M dict :=
  match feature_subset with
  | [] => ret sampled_features
  | feature_name :: rest =>
      let* v := getitem sampled_instance feature_name in
      project sampled_instance rest (<[feature_name := v]> sampled_features)
  end.

Definition _sample_marginals (features : list loc) (feature_subset : list string) : M dict :=
  let* rand_idx := randrange (Z.of_nat (length features)) in
  let* stored := index features rand_idx in
  let* sampled_instance := copy stored in
  project sampled_instance feature_subset ∅.

Fixpoint _sample_product_marginals_from (features : list loc)
    (feature_subset : list string) (sampled_features : dict) : M dict :=
  match feature_subset with
  | [] => ret sampled_features
  | feature_name :: rest =>
      let* rand_idx := randrange (Z.of_nat (length features)) in
      let* stored := index features rand_idx in
      let* copied := copy stored in
      let* v := getitem copied feature_name in
      _sample_product_marginals_from features rest (<[feature_name := v]> sampled_features)
  end.

Definition _sample_product_marginals (features : list loc) (feature_subset : list string)
    : M dict :=
  _sample_product_marginals_from features feature_subset ∅.

Definition _sample (self : t) (storage_object : BaseStorage) (feature_subset : list string)
    : M dict :=
  let features := (get_data storage_object).1 in
  if bool_decide (sampling_strategy self = "joint"%string) then
    _sample_marginals features feature_subset
  else _sample_product_marginals features feature_subset.

(** [for key in feature_subset: new_x_i[key] = sampled_values[key]] *)
Fixpoint overwrite (new_x_i : loc) (feature_subset : list string) (sampled_values : dict)
    : M unit :=
  match feature_subset with
  | [] => ret tt
  | key :: rest =>
      match sampled_values !! key with
      | None => raise KeyError
      | Some v =>
          let* _ := setitem_dict new_x_i key v in
          overwrite new_x_i rest sampled_values
      end
  end.

(** The body of [impute], [n] iterations still to do. *)
Fixpoint impute_from (self : t) (feature_subset : list string) (x_i : loc)
    (n : nat) (predictions : list Q) : M (list Q) :=
  match n with
  | O => ret predictions
  | S n' =>
      let* sampled_values := _sample self (storage_object self) feature_subset in
      let* new_x_i := copy x_i in
      let* _ := overwrite new_x_i feature_subset sampled_values in
      let* prediction := predict_one new_x_i in
      impute_from self feature_subset x_i n' (predictions ++ [prediction])
  end.

Definition impute (self : t) (feature_subset : list string) (x_i : loc) (n_samples : Z)
    : M (list Q) :=
  impute_from self feature_subset x_i (Z.to_nat n_samples) [].

(** [m], started on a heap that extends [h0], ends on such a heap, with
    a result that satisfies [post] when it does not raise. *)
Definition keeps {A} (h0 : heap) (m : M A) (post : A -> Prop) : Prop :=
  forall h tr h' r,
    h0 ⊆ h -> runs any_answer (m h) tr (h', r) ->
    h0 ⊆ h' /\ forall a, r = OK a -> post a.

End MarginalImputer.

(** ** A small heap on which the imputer is evaluated *)

Module ImputerExample.
Import MarginalImputer.

(** The caller's [x_i = {'a': 1, 'b': 2}] is object 1; the storage holds
    object 2, [{'a': 5, 'b': 6}]. *)
Definition heap_before : heap :=
  <[2%positive := <["b"%string := 6%Q]> (<["a"%string := 5%Q]> ∅)]>
    (<[1%positive := <["b"%string := 2%Q]> (<["a"%string := 1%Q]> ∅)]> ∅).

Definition imputer : t := Build "joint" (Storage [2%positive] []).

(** The generator answers 0; the model returns [x['a']] and deletes
    ['b'] from the dict it is handed. *)
Definition handler (X : Type) (e : impE X) (w : unit) : X * unit :=
  match e in impE X return X * unit with
  | RandRange _ => (0, w)
  | PredictOne x =>
      ((delete "b"%string x,
        match x !! "a"%string with Some v => OK v | None => Exn KeyError end), w)
  end.

End ImputerExample.

(** ** The reservoir store with the items it was offered *)

Module ReservoirHistory.
Import UniformReservoirStorage.

Section History.
Context {X Y : Type}.

(** [history st sz items self]: [self] is a store built by
    [__init__ st sz] and then offered [items], in order, by calls of
    [update], whatever the generator answered. *)
Inductive history (st : bool) (sz : Z) : list (X * Y) -> t X Y -> Prop :=
| history_init : history st sz [] (__init__ st sz)
| history_update items self x y tr self' r :
    history st sz items self ->
    runs in_range (update self x y) tr (self', r) ->
    history st sz (items ++ [(x, y)]) self'.

(** Where the stored items come from. *)
Definition from_history (st : bool) (items : list (X * Y)) (self : t X Y) : Prop :=
  (forall i x, _storage_x self !! i = Some x -> x ∈ items.*1) /\
  (st = true -> forall i x y,
     _storage_x self !! i = Some x -> _storage_y self !! i = Some y -> (x, y) ∈ items) /\
  (st = false -> _storage_y self = []).

End History.

End ReservoirHistory.

(** ** The estimator: answers of a well-behaved environment *)

Module SageMore.
Import Sage SageEnv.

(** numpy's generator answers [permutation(l)] with a permutation of
    [l]; the other calls may answer anything. *)
Definition valid_answer (X : Type) (e : sageE X) : X -> Prop :=
  match e in sageE X return X -> Prop with
  | NpRandomPermutation l => fun chain => chain ≡ₚ l
  | _ => fun _ => True
  end.

(** Every configured feature has its tracker, as after [__init__]. *)
Definition well_formed (self : IncrementalSAGE) : Prop :=
  forall f, f ∈ feature_names self -> SAGE_trackers self !! f = Some (SAGETracker f).

(** The trackers read for the snapshot, with the values read. *)
Definition tracker_reads (ev : event sageE) : list (tracker_ref * Q) :=
  match ev with
  | Ev e x =>
      match e in sageE X return X -> list (tracker_ref * Q) with
      | TrackerValue t => fun v => [(t, v)]
      | _ => fun _ => []
      end x
  end.

(** The sample lists the sampler returned. *)
Definition samples (ev : event sageE) : list (list dict) :=
  match ev with
  | Ev e x =>
      match e in sageE X return X -> list (list dict) with
      | SamplerSample _ => fun xs => [xs]
      | _ => fun _ => []
      end x
  end.

(** [x_i] restricted to the given features. *)
Definition revealed (x_i : dict) (features : list string) : dict :=
  filter (fun kv => kv.1 ∈ features) x_i.

(** The model inputs of a walk along [chain] with [n] copies of the
    default vector [d] per step: at step [j] the first [j] features of
    the chain have their values of [x_i], the others their defaults. *)
Definition walk_inputs (x_i d : dict) (n : nat) (chain : list string) : list dict :=
  flat_map (fun j => replicate n (revealed x_i (take j chain) ∪ d))
           (seq 1 (length chain)).

End SageMore.

(** ** The imputer: what the model is handed and what is returned *)

Module ImputerMore.
Import MarginalImputer.

(** The dicts handed to [model.predict_one], as they were at the call. *)
Definition handed (ev : event impE) : list dict :=
  match ev with
  | Ev e _ => match e with PredictOne x => [x] | RandRange _ => [] end
  end.

(** The predictions [model.predict_one] returned. *)
Definition predicted (ev : event impE) : list Q :=
  match ev with
  | Ev e x =>
      match e in impE X return X -> list Q with
      | PredictOne _ => fun a => match a.2 with OK p => [p] | Exn _ => [] end
      | RandRange _ => fun _ => []
      end x
  end.

(** Every dict handed to the model satisfies [good]. *)
Definition on_inputs (good : dict -> Prop) (ev : event impE) : Prop :=
  Forall good (handed ev).

(** [m], started on a heap that satisfies [pre]: the dicts it hands to
    the model satisfy [good], and when it returns [a] on the heap [h'],
    [post a h'] holds. *)
Definition triple {A} (pre : heap -> Prop) (m : M A) (good : dict -> Prop)
    (post : A -> heap -> Prop) : Prop :=
  forall h tr h' r,
    pre h -> runs any_answer (m h) tr (h', r) ->
    Forall (on_inputs good) tr /\ forall a, r = OK a -> post a h'.

(** The heap still holds what [h0] held. *)
Definition ext (h0 h : heap) : Prop := h0 ⊆ h.

(** [d] has the caller's values [cx] outside [feature_subset] and the
    values [sampled] inside. *)
Definition imputed (feature_subset : list string) (cx sampled d : dict) : Prop :=
  forall k, d !! k = if bool_decide (k ∈ feature_subset) then sampled !! k else cx !! k.

(** Every value of [sampled] for a feature of the subset is the value a
    stored vector has for that feature. *)
Definition from_storage (h0 : heap) (features : list loc) (feature_subset : list string)
    (sampled : dict) : Prop :=
  forall k, k ∈ feature_subset ->
    exists s c v, s ∈ features /\ h0 !! s = Some c /\ c !! k = Some v /\ sampled !! k = Some v.

(** All values of [sampled] for the features of the subset are those
    of one stored vector. *)
Definition from_one_stored (h0 : heap) (features : list loc) (feature_subset : list string)
    (sampled : dict) : Prop :=
  exists s c, s ∈ features /\ h0 !! s = Some c /\
    forall k, k ∈ feature_subset -> exists v, c !! k = Some v /\ sampled !! k = Some v.

(** Every value of a sampled dict is the value a stored vector has
    under the same key. *)
Definition stored_values (h0 : heap) (features : list loc) (acc : dict) : Prop :=
  forall k v, acc !! k = Some v ->
    exists s c, s ∈ features /\ h0 !! s = Some c /\ c !! k = Some v.

(** What [impute] hands to the model: the caller's values [cx] with the
    features of the subset replaced by sampled values. *)
Definition model_input (h0 : heap) (self : t) (feature_subset : list string)
    (cx d : dict) : Prop :=
  exists sampled,
    (from_storage h0 (_storage_x (storage_object self)) feature_subset sampled /\
     (sampling_strategy self = "joint"%string ->
      from_one_stored h0 (_storage_x (storage_object self)) feature_subset sampled)) /\
    imputed feature_subset cx sampled d.

(** [m] does not call the model. *)
Definition silent {A} (m : M A) : Prop :=
  forall h tr h' r,
    runs any_answer (m h) tr (h', r) ->
    flat_map handed tr = [] /\ flat_map predicted tr = [].

End ImputerMore.
(** * Properties *)

(** ** Runs of programs *)

Lemma runs_bind {E A B} ok (t : prog E A) (f : A -> prog E B) tr b :
  runs ok (bind t f) tr b <->
  exists tr1 a tr2, runs ok t tr1 a /\ runs ok (f a) tr2 b /\ tr = tr1 ++ tr2.
Proof.
  revert tr. induction t as [a|X e k IH]; intros tr; simpl.
  - split.
    + intros H. exists [], a, tr. auto.
    + intros (tr1 & a' & tr2 & [-> ->] & H & ->). exact H.
  - split.
    + intros (x & tr' & Hok & -> & H). apply IH in H.
      destruct H as (tr1 & a & tr2 & H1 & H2 & ->).
      exists (Ev e x :: tr1), a, tr2. split; [|auto].
      exists x, tr1. auto.
    + intros (tr1 & a & tr2 & (x & tr' & Hok & -> & H1) & H2 & ->).
      exists x, (tr' ++ tr2). split; [exact Hok|]. split; [reflexivity|].
      apply IH. exists tr', a, tr2. auto.
Qed.

Lemma interp_runs {E W A} (ok : forall X, E X -> X -> Prop)
    (h : forall X, E X -> W -> X * W) (t : prog E A) :
  (forall X (e : E X) w, ok X e (h X e w).1) ->
  forall w, runs ok t (interp h t w).2 (interp h t w).1.1.
Proof.
  intros Hh. induction t as [a|X e k IH]; intros w; simpl.
  - auto.
  - specialize (Hh X e w). destruct (h X e w) as [x w1]. simpl in Hh.
    specialize (IH x w1). destruct (interp h (k x) w1) as [[a w2] tr].
    simpl in *. exists x, tr. auto.
Qed.

Lemma setitem_length {A} (l l' : list A) i x :
  setitem l i x = OK l' -> length l' = length l.
Proof.
  unfold setitem. intros H.
  destruct (_ && _); [|destruct (_ && _)]; inversion H; subst;
    apply length_insert.
Qed.

Lemma setitem_elem_of {A} (l l' : list A) i x :
  setitem l i x = OK l' -> x ∈ l'.
Proof.
  unfold setitem. intros H.
  destruct ((0 <=? i) && (i <? Z.of_nat (length l))) eqn:H1.
  - inversion H; subst. apply andb_true_iff in H1 as [H1 H2].
    apply list_elem_of_lookup. exists (Z.to_nat i).
    apply list_lookup_insert_eq. lia.
  - destruct ((- Z.of_nat (length l) <=? i) && (i <? 0)) eqn:H2; inversion H; subst.
    apply andb_true_iff in H2 as [H2 H3].
    apply list_elem_of_lookup. exists (Z.to_nat (Z.of_nat (length l) + i)).
    apply list_lookup_insert_eq. lia.
Qed.


(** ** The reservoir store *)

Section ReservoirFacts.
Import UniformReservoirStorage.
Context {X Y : Type}.
Implicit Types self : t X Y.

Lemma runs_randint a b tr (r : result Z) :
  runs in_range (randint a b) tr r ->
  (b < a /\ r = Exn ValueError) \/ (exists v, a <= v <= b /\ r = OK v).
Proof.
  unfold randint. destruct (b <? a) eqn:Hba; simpl.
  - intros [_ ->]. left. split; [lia|reflexivity].
  - intros (v & tr' & Hv & _ & _ & ->). right. eauto.
Qed.

Lemma runs_randrange n tr (r : result Z) :
  runs in_range (randrange n) tr r ->
  (n <= 0 /\ r = Exn ValueError) \/ (exists v, 0 <= v < n /\ r = OK v).
Proof.
  unfold randrange. destruct (n <=? 0) eqn:Hn; simpl.
  - intros [_ ->]. left. split; [lia|reflexivity].
  - intros (v & tr' & Hv & _ & _ & ->). right. eauto.
Qed.

Lemma update_store_inv st sz self x y tr self' r :
  store_inv st sz self ->
  runs in_range (update self x y) tr (self', r) ->
  store_inv st sz self'.
Proof.
  intros (Hsz & Hst & Hlen & Hy). unfold update.
  destruct (Z.of_nat (length (_storage_x self)) <? size self) eqn:Hfull.
  - (* room left: append *)
    simpl. destruct (store_targets self) eqn:Ht; simpl; intros [_ E];
      inversion E; subst; unfold store_inv; simpl;
      rewrite ?length_app; simpl; repeat split; auto; try lia.
  - (* full: admission draw *)
    intros H. apply runs_bind in H as (tr1 & r1 & tr2 & H1 & H2 & _).
    apply runs_randint in H1 as [[_ ->]|(v & Hv & ->)].
    { destruct H2 as [_ E]. inversion E; subst. repeat split; auto. }
    destruct (v <=? size self); cycle 1.
    { destruct H2 as [_ E]. inversion E; subst. repeat split; auto. }
    apply runs_bind in H2 as (tr3 & r3 & tr4 & H3 & H4 & _).
    apply runs_randrange in H3 as [[_ ->]|(j & Hj & ->)].
    { destruct H4 as [_ E]. inversion E; subst. repeat split; auto. }
    destruct (setitem (_storage_x self) j x) as [sx|e] eqn:Hsx; cycle 1.
    { destruct H4 as [_ E]. inversion E; subst. repeat split; auto. }
    apply setitem_length in Hsx. simpl in H4.
    destruct (store_targets self) eqn:Ht.
    + destruct (setitem (_storage_y self) j y) as [sy|e] eqn:Hsy;
        destruct H4 as [_ E]; inversion E; subst; unfold store_inv; simpl.
      * apply setitem_length in Hsy. repeat split; auto; try lia.
      * (* the target assignment raised: the feature list is already
           overwritten, both lengths are as before *)
        repeat split; auto; try lia.
    + destruct H4 as [_ E]. inversion E; subst. unfold store_inv; simpl.
      repeat split; auto; try lia.
Qed.

Lemma reachable_store_inv st sz n self :
  0 <= sz -> reachable st sz n self -> store_inv st sz self.
Proof.
  intros Hsz. induction 1 as [|n self x y tr self' r _ IH Hrun].
  - unfold store_inv, __init__; simpl. repeat split; auto.
  - eapply update_store_inv; eauto.
Qed.

(** A full store takes every item: the admission draw ranges over
    [1 .. len(self._storage_x)], which is the capacity. *)
Lemma update_full_always_stores self x y :
  0 < size self ->
  Z.of_nat (length (_storage_x self)) = size self ->
  admission_draw (update self x y) = Some (1, size self) /\
  forall tr self' r, runs in_range (update self x y) tr (self', r) ->
    x ∈ _storage_x self'.
Proof.
  intros Hpos Hlen. unfold update. rewrite Hlen, Z.ltb_irrefl.
  unfold randint. replace (size self <? 1) with false by lia. simpl.
  split; [reflexivity|].
  intros tr self' r (v & tr1 & Hv & _ & H). simpl in Hv.
  replace (v <=? size self) with true in H by lia.
  unfold randrange in H. replace (size self <=? 0) with false in H by lia.
  simpl in H. destruct H as (j & tr2 & Hj & _ & H). simpl in Hj.
  destruct (setitem (_storage_x self) j x) as [sx|e] eqn:Hsx.
  - apply setitem_elem_of in Hsx. simpl in H.
    destruct (store_targets self);
      [destruct (setitem (_storage_y self) j y)|];
      destruct H as [_ E]; inversion E; subst; exact Hsx.
  - exfalso. unfold setitem in Hsx.
    rewrite andb_true_intro in Hsx by (split; lia). discriminate.
Qed.

End ReservoirFacts.

(** C8. Whatever calls of [update] a store built with capacity [sz >= 0]
    has received, and whatever the generator answered, it holds at most
    [sz] feature vectors, and when targets are stored the target list is
    as long as the feature list. *)
Theorem reservoir_never_exceeds_capacity {X Y : Type}
    (st : bool) (sz : Z) (n : nat) (self : UniformReservoirStorage.t X Y) :
  0 <= sz ->
  UniformReservoirStorage.reachable st sz n self ->
  Z.of_nat (length (UniformReservoirStorage._storage_x self)) <= sz /\
  (st = true ->
   length (UniformReservoirStorage._storage_y self) =
   length (UniformReservoirStorage._storage_x self)).
Proof.
  intros Hsz Hr. apply (reachable_store_inv st sz n self Hsz) in Hr.
  destruct Hr as (_ & _ & H1 & H2). auto.
Qed.

Lemma reservoir_never_exceeds_capacity_witness :
  0 <= 1 /\
  UniformReservoirStorage.reachable true 1 2
    (UniformReservoirStorage.Build 1 true ["b"%string] [2]) /\
  (Z.of_nat (length ["b"%string]) <= 1 /\ (true = true -> length [2] = length ["b"%string])).
Proof.
  assert (Hr : UniformReservoirStorage.reachable true 1 2
                 (UniformReservoirStorage.Build 1 true ["b"%string] [2])).
  { eapply UniformReservoirStorage.reach_update
      with (x := "b"%string) (y := 2) (r := OK tt)
           (self := UniformReservoirStorage.Build 1 true ["a"%string] [1]).
    - eapply UniformReservoirStorage.reach_update
        with (x := "a"%string) (y := 1) (r := OK tt);
        [apply UniformReservoirStorage.reach_init|].
      simpl. split; reflexivity.
    - simpl. exists 1, [Ev (UniformReservoirStorage.RandRange 1) 0].
      split; [simpl; lia|]. split; [reflexivity|].
      exists 0, []. split; [simpl; lia|]. split; [reflexivity|].
      simpl. split; reflexivity. }
  split; [lia|]. split; [exact Hr|].
  apply (reservoir_never_exceeds_capacity true 1 2
           (UniformReservoirStorage.Build 1 true ["b"%string] [2]));
    [lia|exact Hr].
Defined.

(** C1 (the code departs from it). With capacity 1 and two offered items
    the first is present with probability 0 and the second with
    probability 1, not 1/2 each; with capacity 2 and three offered items
    the probabilities are 1/2, 1/2 and 1, not 2/3 each. *)
Theorem reservoir_inclusion_not_uniform :
  let pr_in x t :=
    UniformReservoirStorage.pr (holds x) (UniformReservoirStorage.dist t) in
  (pr_in "a"%string after_ab == 0 /\ pr_in "b"%string after_ab == 1)%Q /\
  (pr_in "a"%string after_abc == 1 # 2 /\ pr_in "b"%string after_abc == 1 # 2 /\
   pr_in "c"%string after_abc == 1)%Q /\
  ~ (pr_in "a"%string after_ab == 1 # 2)%Q /\
  ~ (pr_in "c"%string after_abc == 2 # 3)%Q.
Proof.
  cbv zeta. repeat split; try (vm_compute; reflexivity);
    intros H; vm_compute in H; discriminate.
Qed.

(** C2 (the code departs from it). The store of capacity 1 that has been
    offered one item is offered a second: two items have been seen, yet the
    admission draw ranges over [1 .. 1], the new item is always admitted,
    and the object has no attribute counting the offered items. *)
Theorem reservoir_admission_draw_range :
  let full := UniformReservoirStorage.Build 1 false ["a"%string] ([] : list unit) in
  UniformReservoirStorage.reachable false 1 1 full /\
  UniformReservoirStorage.admission_draw
    (UniformReservoirStorage.update full "b"%string tt) = Some (1, 1) /\
  forall tr self' r,
    runs UniformReservoirStorage.in_range
      (UniformReservoirStorage.update full "b"%string tt) tr (self', r) ->
    UniformReservoirStorage._storage_x self' = ["b"%string].
Proof.
  cbv zeta. split; [|split; [reflexivity|]].
  - eapply UniformReservoirStorage.reach_update
      with (x := "a"%string) (y := tt) (r := OK tt);
      [apply UniformReservoirStorage.reach_init|].
    simpl. split; reflexivity.
  - intros tr self' r (v & tr1 & Hv & _ & H). simpl in Hv.
    replace v with 1 in H by lia. simpl in H.
    destruct H as (j & tr2 & Hj & _ & H). simpl in Hj.
    replace j with 0 in H by lia. simpl in H.
    destruct H as [_ E]. inversion E. reflexivity.
Qed.

(** ** Construction of the estimator *)

Section InitFacts.
Import Sage.

Lemma defaults_dict_enough (defaults : list Q) :
  forall (names : list string) (i : nat) (acc : dict),
    (i + length names <= length defaults)%nat ->
    defaults_dict (zip names (seq i (length names))) defaults acc
    = OK (foldl SageEnv.put acc (zip names (drop i defaults))).
Proof.
  induction names as [|f fs IH]; intros i acc Hlen; simpl in *.
  - reflexivity.
  - destruct (defaults !! i) as [v|] eqn:Hv.
    + rewrite (drop_S _ _ _ Hv). simpl. rewrite IH by lia. reflexivity.
    + apply lookup_ge_None in Hv. lia.
Qed.

Lemma defaults_dict_short (defaults : list Q) :
  forall (names : list string) (i : nat) (acc : dict),
    (i <= length defaults < i + length names)%nat ->
    defaults_dict (zip names (seq i (length names))) defaults acc
    = Exn IndexError.
Proof.
  induction names as [|f fs IH]; intros i acc Hlen; simpl in *.
  - lia.
  - destruct (defaults !! i) as [v|] eqn:Hv; [|reflexivity].
    apply lookup_lt_Some in Hv. apply IH. lia.
Qed.

Lemma loss_known_dec (loss : string) :
  bool_decide (loss ∈ ["mae"; "mse"]%string) = true <->
  loss = "mae"%string \/ loss = "mse"%string.
Proof.
  rewrite bool_decide_eq_true. rewrite !elem_of_cons, elem_of_nil. tauto.
Qed.

End InitFacts.

(** C6. A [loss_function] other than ['mae'] and ['mse'] makes the
    constructor raise (its assertion fails, before any [explain_one]);
    with ['mae'] or ['mse'] the assertion passes: the constructor raises
    no AssertionError, and without [default_values] it returns the
    estimator. *)
Theorem init_checks_loss_function (feature_names : list string) (loss : string)
    (random_state : option Z) (sub_sample_size : Z) (default_values : option (list Q)) :
  (loss <> "mae"%string /\ loss <> "mse"%string ->
   Sage.__init__ feature_names loss random_state sub_sample_size default_values
   = Exn AssertionError) /\
  (loss = "mae"%string \/ loss = "mse"%string ->
   Sage.__init__ feature_names loss random_state sub_sample_size default_values
   <> Exn AssertionError /\
   is_ok (Sage.__init__ feature_names loss random_state sub_sample_size None) = true).
Proof.
  unfold Sage.__init__. split.
  - intros [H1 H2].
    destruct (bool_decide (loss ∈ ["mae"; "mse"]%string)) eqn:Hd; [|reflexivity].
    apply loss_known_dec in Hd. tauto.
  - intros H. apply loss_known_dec in H. rewrite H. simpl. split; [|reflexivity].
    destruct default_values as [dv|]; [|discriminate].
    destruct (Nat.le_gt_cases (length feature_names) (length dv)) as [Hle|Hgt].
    + rewrite (defaults_dict_enough dv feature_names 0) by (simpl; lia). discriminate.
    + rewrite (defaults_dict_short dv feature_names 0) by (simpl; lia). discriminate.
Qed.

Lemma init_checks_loss_function_witness :
  ("huber"%string <> "mae"%string /\ "huber"%string <> "mse"%string) /\
  Sage.__init__ ["a"; "b"]%string "huber" None 1 None = Exn AssertionError /\
  ("mae"%string = "mae"%string \/ "mae"%string = "mse"%string) /\
  Sage.__init__ ["a"; "b"]%string "mae" None 1 None <> Exn AssertionError.
Proof.
  assert (H1 : "huber"%string <> "mae"%string /\ "huber"%string <> "mse"%string)
    by (split; discriminate).
  assert (H2 : "mae"%string = "mae"%string \/ "mae"%string = "mse"%string)
    by (left; reflexivity).
  split; [exact H1|]. split.
  - exact (proj1 (init_checks_loss_function ["a"; "b"]%string "huber" None 1 None) H1).
  - split; [exact H2|].
    exact (proj1 (proj2 (init_checks_loss_function ["a"; "b"]%string "mae" None 1 None) H2)).
Defined.

(** C7, as the code has it. A [default_values] list shorter than
    [feature_names] makes the constructor raise; a longer one does not:
    with a known loss the constructor returns, and the estimator's default
    vector pairs the feature names with the leading values, the surplus
    being ignored. *)
Theorem init_default_values_length (feature_names : list string) (loss : string)
    (random_state : option Z) (sub_sample_size : Z) (default_values : list Q) :
  ((length default_values < length feature_names)%nat ->
   is_ok (Sage.__init__ feature_names loss random_state sub_sample_size
            (Some default_values)) = false) /\
  ((length feature_names <= length default_values)%nat ->
   loss = "mae"%string \/ loss = "mse"%string ->
   exists self,
     Sage.__init__ feature_names loss random_state sub_sample_size (Some default_values)
     = OK self /\
     Sage.default_values self = Some (foldl SageEnv.put ∅ (zip feature_names default_values))).
Proof.
  unfold Sage.__init__. split.
  - intros Hlt. destruct (negb _); [reflexivity|].
    rewrite (defaults_dict_short default_values feature_names 0) by (simpl; lia).
    reflexivity.
  - intros Hle H. apply loss_known_dec in H. rewrite H. simpl.
    rewrite (defaults_dict_enough default_values feature_names 0) by (simpl; lia).
    rewrite drop_0. eexists. split; reflexivity.
Qed.

Lemma init_default_values_length_witness :
  (length [0%Q] < length ["a"; "b"]%string)%nat /\
  is_ok (Sage.__init__ ["a"; "b"]%string "mse" None 1 (Some [0%Q])) = false /\
  (length ["a"%string] <= length [0%Q; 1%Q])%nat /\
  ("mse"%string = "mae"%string \/ "mse"%string = "mse"%string) /\
  exists self,
    Sage.__init__ ["a"%string] "mse" None 1 (Some [0%Q; 1%Q]) = OK self /\
    Sage.default_values self = Some (foldl SageEnv.put ∅ (zip ["a"%string] [0%Q; 1%Q])).
Proof.
  assert (H1 : (length [0%Q] < length ["a"; "b"]%string)%nat) by (simpl; lia).
  assert (H2 : (length ["a"%string] <= length [0%Q; 1%Q])%nat) by (simpl; lia).
  assert (H3 : "mse"%string = "mae"%string \/ "mse"%string = "mse"%string)
    by (right; reflexivity).
  split; [exact H1|]. split.
  - exact (proj1 (init_default_values_length ["a"; "b"]%string "mse" None 1 [0%Q]) H1).
  - split; [exact H2|]. split; [exact H3|].
    exact (proj2 (init_default_values_length ["a"%string] "mse" None 1 [0%Q; 1%Q]) H2 H3).
Defined.

(** C7 as stated fails: two default values for one feature name, and the
    constructor returns. *)
Lemma init_accepts_longer_default_values :
  length [0%Q; 1%Q] <> length ["a"%string] /\
  is_ok (Sage.__init__ ["a"%string] "mse" None 1 (Some [0%Q; 1%Q])) = true.
Proof. split; [simpl; lia|reflexivity]. Qed.

(** ** Runs of the estimator *)

Section SageRuns.
Import Sage SageEnv.

Lemma interp_bind {E W A B} (h : forall X, E X -> W -> X * W)
    (t : prog E A) (f : A -> prog E B) (w : W) :
  interp h (bind t f) w =
  let r1 := interp h t w in
  let r2 := interp h (f r1.1.1) r1.1.2 in
  (r2.1.1, r2.1.2, r1.2 ++ r2.2).
Proof.
  revert w. induction t as [a|X e k IH]; intros w; simpl.
  - destruct (interp h (f a) w) as [[b w2] tr]. reflexivity.
  - destruct (h X e w) as [x w1]. rewrite IH.
    destruct (interp h (k x) w1) as [[a w2] tr1]. simpl.
    destruct (interp h (f a) w2) as [[b w3] tr2]. reflexivity.
Qed.

Lemma trackers_dict_lookup (mk : string -> tracker_ref) (names : list string) (f : string) :
  trackers_dict mk names !! f = if bool_decide (f ∈ names) then Some (mk f) else None.
Proof.
  unfold trackers_dict.
  assert (H : forall (acc : gmap string tracker_ref),
    foldl (fun acc n => <[n := mk n]> acc) acc names !! f =
    if bool_decide (f ∈ names) then Some (mk f) else acc !! f).
  { induction names as [|n ns IH]; intros acc; simpl.
    - reflexivity.
    - rewrite IH. destruct (decide (f = n)) as [->|Hne].
      + rewrite lookup_insert_eq.
        rewrite (bool_decide_eq_true_2 (n ∈ n :: ns)) by apply list_elem_of_here.
        destruct (bool_decide (n ∈ ns)); reflexivity.
      + rewrite lookup_insert_ne by congruence.
        destruct (bool_decide (f ∈ ns)) eqn:Hin.
        * apply bool_decide_eq_true in Hin.
          rewrite bool_decide_eq_true_2 by (apply list_elem_of_further; exact Hin).
          reflexivity.
        * apply bool_decide_eq_false in Hin.
          rewrite bool_decide_eq_false_2; [reflexivity|].
          rewrite elem_of_cons. tauto. }
  rewrite H. destruct (bool_decide (f ∈ names)); [reflexivity|apply lookup_empty].
Qed.

Lemma init_fields names loss rs ssz dv self :
  __init__ names loss rs ssz dv = OK self ->
  feature_names self = names /\ seen_samples self = 0 /\
  SAGE_trackers self = trackers_dict SAGETracker names /\
  marginal_prediction self = MarginalPrediction /\
  sub_sample_size self = ssz /\
  (default_values self = None <-> dv = None).
Proof.
  unfold __init__. destruct (negb _); [discriminate|].
  destruct dv as [d|].
  - destruct (defaults_dict _ _ _); [|discriminate].
    intros E; inversion E; subst; simpl. repeat split; auto; discriminate.
  - intros E; inversion E; subst; simpl. repeat split; auto.
Qed.

(** Reading the snapshot: no exception when every name has a tracker,
    and only tracker reads. *)
Lemma runs_SAGE_values_from self :
  forall names acc tr r,
    (forall f, f ∈ names -> is_Some (SAGE_trackers self !! f)) ->
    runs any_answer (SAGE_values_from self names acc) tr r ->
    is_ok r = true /\ Forall (fun ev => is_model_call ev = false) tr /\
    flat_map sampler_calls tr = [].
Proof.
  induction names as [|n ns IH]; intros acc tr r Hk; simpl.
  - intros [-> ->]. auto.
  - destruct (Hk n) as [t Ht]; [apply list_elem_of_here|]. rewrite Ht. simpl.
    intros (v & tr' & _ & -> & H).
    apply IH in H as (H1 & H2 & H3);
      [|intros f Hf; apply Hk, list_elem_of_further, Hf].
    repeat split; auto.
Qed.

Section WithWorld.
Context {G Smp : Type}.
Variable permutation : G -> list string -> list string * G.
Variable sampler_update : Smp -> dict -> Q -> Smp.
Variable sampler_sample : Smp -> Z -> list dict * Smp.
Variable model_fn : dict -> result Q.
Let h := handle permutation sampler_update sampler_sample model_fn.

Lemma interp_SAGE_values_from self (w : world) :
  (forall t, ExponentialSmoothingTracker.tracked_value (trackers w t) = 0%Q) ->
  forall names acc,
    (forall f, f ∈ names -> is_Some (SAGE_trackers self !! f)) ->
    (interp h (SAGE_values_from self names acc) w).1 =
    (OK (foldl (fun acc f => <[f := 0%Q]> acc) acc names), w).
Proof.
  intros Hz. induction names as [|n ns IH]; intros acc Hk; simpl.
  - reflexivity.
  - destruct (Hk n) as [t Ht]; [apply list_elem_of_here|]. rewrite Ht. simpl.
    specialize (IH (<[n := ExponentialSmoothingTracker.tracked_value (trackers w t)]> acc)).
    destruct (interp h (SAGE_values_from self ns _) w) as [[a w2] tr] eqn:E.
    simpl in *. rewrite IH.
    + rewrite Hz. reflexivity.
    + intros f Hf. apply Hk, list_elem_of_further, Hf.
Qed.

End WithWorld.

Lemma foldl_zero_lookup (names : list string) (f : string) :
  forall acc : gmap string Q,
    foldl (fun acc n => <[n := 0%Q]> acc) acc names !! f =
    if bool_decide (f ∈ names) then Some 0%Q else acc !! f.
Proof.
  induction names as [|n ns IH]; intros acc; simpl.
  - reflexivity.
  - rewrite IH. destruct (decide (f = n)) as [->|Hne].
    + rewrite lookup_insert_eq.
      rewrite (bool_decide_eq_true_2 (n ∈ n :: ns)) by apply list_elem_of_here.
      destruct (bool_decide (n ∈ ns)); reflexivity.
    + rewrite lookup_insert_ne by congruence.
      destruct (bool_decide (f ∈ ns)) eqn:Hin.
      * apply bool_decide_eq_true in Hin.
        rewrite bool_decide_eq_true_2 by (apply list_elem_of_further; exact Hin).
        reflexivity.
      * apply bool_decide_eq_false in Hin.
        rewrite bool_decide_eq_false_2; [reflexivity|].
        rewrite elem_of_cons. tauto.
Qed.

End SageRuns.

(** C3. The first [explain_one] of a freshly constructed estimator:
    whatever the environment answers, the call raises nothing, calls the
    model never, turns to the sampler only (and only when no default
    values were given) to [update] it with the example, and leaves
    [seen_samples] at 1; with the trackers as the constructor creates them
    the snapshot maps every configured feature name, and nothing else, to 0. *)
Theorem warm_up_returns_zero_snapshot {G Smp : Type}
    (permutation : G -> list string -> list string * G)
    (sampler_update : Smp -> Sage.dict -> Q -> Smp)
    (sampler_sample : Smp -> Z -> list Sage.dict * Smp)
    (model_fn : Sage.dict -> result Q)
    (names : list string) (loss : string) (random_state : option Z)
    (sub_sample_size : Z) (defaults : option (list Q))
    (self : Sage.IncrementalSAGE) (x_i : Sage.dict) (y_i : Q)
    (w : @SageEnv.world G Smp) :
  Sage.__init__ names loss random_state sub_sample_size defaults = OK self ->
  SageEnv.trackers w = SageEnv.fresh_trackers ->
  (forall tr self' r,
     runs Sage.any_answer (Sage.explain_one self x_i y_i) tr (self', r) ->
     is_ok r = true /\
     Forall (fun ev => SageEnv.is_model_call ev = false) tr /\
     flat_map SageEnv.sampler_calls tr
       = match defaults with None => [inl (x_i, y_i)] | Some _ => [] end /\
     Sage.seen_samples self' = 1) /\
  exists snapshot,
    (interp (SageEnv.handle permutation sampler_update sampler_sample model_fn)
            (Sage.explain_one self x_i y_i) w).1.1.2 = OK snapshot /\
    forall f, snapshot !! f = if bool_decide (f ∈ names) then Some 0%Q else None.
Proof.
  intros Hinit Hw.
  destruct (init_fields _ _ _ _ _ _ Hinit) as (Hn & Hseen & Htr & _ & _ & Hdv).
  assert (Hk : forall f, f ∈ Sage.feature_names self ->
                 is_Some (Sage.SAGE_trackers self !! f)).
  { intros f Hf. rewrite Htr, trackers_dict_lookup, Hn in *.
    rewrite bool_decide_eq_true_2 by exact Hf. eauto. }
  unfold Sage.explain_one. rewrite Hseen. simpl. unfold Sage.finish. simpl.
  split.
  - intros tr self' r H.
    apply runs_bind in H as (tr1 & u & tr2 & H1 & H2 & ->).
    apply runs_bind in H2 as (tr3 & values & tr4 & H3 & [-> E] & ->).
    inversion E; subst; clear E. simpl.
    apply runs_SAGE_values_from in H3 as (Hok & Hm & Hs); [|exact Hk].
    rewrite app_nil_r, flat_map_app, Hs, app_nil_r, Hseen.
    destruct defaults as [d|].
    + destruct (Sage.default_values self) as [d'|] eqn:Hd;
        [|discriminate (proj1 Hdv eq_refl)].
      destruct H1 as [-> _]. simpl. repeat split; auto.
    + rewrite (proj2 Hdv eq_refl) in H1.
      destruct H1 as ([] & tr' & _ & -> & -> & _). simpl.
      repeat split; auto.
  - rewrite interp_bind. cbv zeta.
    set (r1 := interp _ _ w).
    assert (Hw1 : SageEnv.trackers r1.1.2 = SageEnv.fresh_trackers).
    { subst r1. destruct (Sage.default_values self); simpl; exact Hw. }
    rewrite interp_bind. cbv zeta. simpl.
    unfold Sage.SAGE_values. simpl.
    rewrite (interp_SAGE_values_from permutation sampler_update sampler_sample model_fn);
      [|intros t; rewrite Hw1; reflexivity|exact Hk].
    simpl. eexists. split; [reflexivity|].
    intros f. rewrite foldl_zero_lookup, Hn, lookup_empty. reflexivity.
Qed.

(** ** The averaged prediction of one permutation step *)

Section AverageFacts.
Import Sage SageEnv.

Lemma runs_while_loop (bound : Z) (x_marginals : list dict) (x_S : dict) :
  forall (fuel : nat) (k : Z) (y : Q) tr r,
    runs any_answer (while_loop fuel bound x_marginals x_S k y) tr r ->
    Forall (fun ev => model_raised ev = false) tr ->
    0 <= k -> bound <= Z.of_nat (length x_marginals) ->
    (Z.to_nat (bound - k) <= fuel)%nat ->
    r = OK (Z.max k bound, fold_left Qplus (flat_map model_outputs tr) y) /\
    flat_map model_inputs tr =
      map (fun x_k => x_S ∪ x_k)
          (take (Z.to_nat (bound - k)) (drop (Z.to_nat k) x_marginals)) /\
    length (flat_map model_outputs tr) = Z.to_nat (bound - k).
Proof.
  induction fuel as [|fuel IH]; intros k y tr r Hrun Hok Hk Hb Hfuel;
    simpl in Hrun; destruct (k <? bound) eqn:Hlt.
  - lia.
  - destruct Hrun as [-> ->]. simpl.
    replace (Z.to_nat (bound - k)) with 0%nat by lia.
    rewrite Z.max_l by lia. auto.
  - destruct (x_marginals !! Z.to_nat k) as [x_k|] eqn:Hx.
    + destruct Hrun as (p & tr' & _ & -> & Hrun).
      inversion Hok as [|? ? Hp Hok']; subst.
      destruct p as [v|e]; [|discriminate Hp]. simpl in Hrun.
      apply IH in Hrun as (-> & Hin & Hlen); [|exact Hok'|lia|lia|lia].
      simpl. replace (Z.to_nat (k + 1)) with (S (Z.to_nat k)) in Hin by lia.
      replace (Z.to_nat (bound - k)) with (S (Z.to_nat (bound - (k + 1)))) by lia.
      rewrite (drop_S _ _ _ Hx). simpl. rewrite Hin, Hlen.
      replace (Z.max (k + 1) bound) with (Z.max k bound) by lia. auto.
    + apply lookup_ge_None in Hx. lia.
  - destruct Hrun as [-> ->]. simpl.
    replace (Z.to_nat (bound - k)) with 0%nat by lia.
    rewrite Z.max_l by lia. auto.
Qed.



(** No sample at all: the division by [k = 0] raises. *)
Lemma averaged_prediction_no_samples self x_S tr r :
  runs any_answer (averaged_prediction self [] x_S) tr r ->
  r = Exn ZeroDivisionError.
Proof.
  unfold averaged_prediction, bind_result. simpl.
  intros H. apply runs_bind in H as (tr1 & r1 & tr2 & H1 & H2 & ->).
  assert (r1 = OK (0, 0%Q)) as ->.
  { remember (Z.min (sub_sample_size self) (Z.of_nat 0)) as bound eqn:Hb.
    destruct (Z.to_nat bound) as [|n]; simpl in H1;
      replace (0 <? bound) with false in H1 by lia;
      destruct H1 as [_ ->]; reflexivity. }
  simpl in H2. destruct H2 as [_ ->]. reflexivity.
Qed.

End AverageFacts.


(** ** The marginal contributions of one call *)

Section TelescopeFacts.
Import Sage SageEnv.

Lemma fed_app tr1 tr2 : fed (tr1 ++ tr2) = fed tr1 ++ fed tr2.
Proof. unfold fed. apply flat_map_app. Qed.



End TelescopeFacts.


(** ** The estimator on the small environment *)

Lemma explain_one_past_warm_up (self : Sage.IncrementalSAGE) (x_i : Sage.dict) (y_i : Q) :
  1 <= Sage.seen_samples self ->
  Sage.explain_one self x_i y_i =
  bind (Sage.contributions self x_i y_i)
       (fun r => match r with
                 | Exn e => Ret (self, Exn e)
                 | OK _ => Sage.finish self x_i y_i
                 end).
Proof.
  intros H. unfold Sage.explain_one.
  replace (Sage.seen_samples self <? 1) with false by lia. reflexivity.
Qed.

Lemma warm_up_returns_zero_snapshot_witness :
  Sage.__init__ ["a"; "b"]%string "mse" None 1 None = OK SageExample.sampling_estimator /\
  SageEnv.trackers (SageExample.initial_world 0) = SageEnv.fresh_trackers /\
  exists snapshot,
    (interp SageExample.handler
            (Sage.explain_one SageExample.sampling_estimator SageExample.x_11 1%Q)
            (SageExample.initial_world 0)).1.1.2 = OK snapshot /\
    forall f, snapshot !! f
              = if bool_decide (f ∈ ["a"; "b"]%string) then Some 0%Q else None.
Proof.
  split; [reflexivity|]. split; [reflexivity|].
  exact (proj2 (warm_up_returns_zero_snapshot
                  SageExample.permutation SageExample.sampler_update
                  SageExample.sampler_sample SageExample.model_fn
                  ["a"; "b"]%string "mse" None 1 None
                  SageExample.sampling_estimator SageExample.x_11 1%Q
                  (SageExample.initial_world 0) eq_refl eq_refl)).
Defined.



(** C4 as stated fails. Two estimators constructed with the same
    arguments, the same [random_state] and fixed default values, and the
    same deterministic model, are fed the same two examples, one estimator
    after the other. The permutations come from numpy's global generator,
    which the first estimator has advanced: after the second example the
    first estimator reports 0 for ['a'] and 1 for ['b'], the second 1 for
    ['a'] and 0 for ['b']. *)
Theorem same_seed_estimators_differ :
  Sage.__init__ ["a"; "b"]%string "mse" (Some 7) 1 (Some [0%Q; 0%Q])
    = OK SageExample.default_estimator /\
  SageExample.snapshot_value SageExample.first_run.1.1 1 "a" = Some 0%Q /\
  SageExample.snapshot_value SageExample.first_run.1.1 1 "b" = Some 1%Q /\
  SageExample.snapshot_value SageExample.second_run.1.1 1 "a" = Some 1%Q /\
  SageExample.snapshot_value SageExample.second_run.1.1 1 "b" = Some 0%Q /\
  SageExample.first_run.1.1 <> SageExample.second_run.1.1.
Proof.
  assert (Ha1 : SageExample.snapshot_value SageExample.first_run.1.1 1 "a" = Some 0%Q)
    by (vm_compute; reflexivity).
  assert (Ha2 : SageExample.snapshot_value SageExample.second_run.1.1 1 "a" = Some 1%Q)
    by (vm_compute; reflexivity).
  split; [reflexivity|]. split; [exact Ha1|].
  split; [vm_compute; reflexivity|]. split; [exact Ha2|].
  split; [vm_compute; reflexivity|].
  intros E. rewrite E in Ha1. rewrite Ha1 in Ha2. discriminate Ha2.
Qed.

(** ** Fixed default values: the snapshots follow numpy's generator *)

Section Determinism.
Import Sage SageEnv.
Context {G Smp : Type}.
Variable permutation : G -> list string -> list string * G.
Variable sampler_update : Smp -> dict -> Q -> Smp.
Variable sampler_sample : Smp -> Z -> list dict * Smp.
Variable model_fn : dict -> result Q.
Let h := handle permutation sampler_update sampler_sample model_fn.
Let world := @world G Smp.
Local Arguments agree : simpl never.

Lemma agree_ret {A} (R : A -> A -> Prop) (a1 a2 : A) (w1 w2 : world) :
  R a1 a2 -> same_but_sampler w1 w2 ->
  agree R (interp h (Ret a1) w1) (interp h (Ret a2) w2).
Proof. intros. split; assumption. Qed.

Lemma agree_bind {A B} (R : A -> A -> Prop) (S : B -> B -> Prop)
    (t1 t2 : prog sageE A) (f1 f2 : A -> prog sageE B) (w1 w2 : world) :
  agree R (interp h t1 w1) (interp h t2 w2) ->
  (forall a1 a2 v1 v2, R a1 a2 -> same_but_sampler v1 v2 ->
     agree S (interp h (f1 a1) v1) (interp h (f2 a2) v2)) ->
  agree S (interp h (bind t1 f1) w1) (interp h (bind t2 f2) w2).
Proof.
  intros [Ha Hw] Hf. rewrite !interp_bind. cbv zeta.
  specialize (Hf _ _ _ _ Ha Hw). destruct Hf as [Hb Hv].
  split; simpl; assumption.
Qed.

Lemma agree_trigger {X} (e : sageE X) (w1 w2 : world) :
  is_sampler_call e = false -> same_but_sampler w1 w2 ->
  agree eq (interp h (trigger e) w1) (interp h (trigger e) w2).
Proof.
  intros He [Hg Ht]. unfold agree, same_but_sampler.
  destruct e; try discriminate He; simpl; rewrite ?Hg, ?Ht; auto.
Qed.

Lemma agree_vis {X B} (S : B -> B -> Prop) (e : sageE X)
    (k1 k2 : X -> prog sageE B) (w1 w2 : world) :
  is_sampler_call e = false -> same_but_sampler w1 w2 ->
  (forall a1 a2 v1 v2, a1 = a2 -> same_but_sampler v1 v2 ->
     agree S (interp h (k1 a1) v1) (interp h (k2 a2) v2)) ->
  agree S (interp h (Vis e k1) w1) (interp h (Vis e k2) w2).
Proof.
  intros He Hw Hk.
  exact (agree_bind eq S (trigger e) (trigger e) k1 k2 w1 w2
           (agree_trigger e w1 w2 He Hw) Hk).
Qed.

Lemma agree_while_loop (bound : Z) (x_marginals : list dict) (x_S : dict) :
  forall (fuel : nat) (k : Z) (y : Q) (w1 w2 : world),
    same_but_sampler w1 w2 ->
    agree eq (interp h (while_loop fuel bound x_marginals x_S k y) w1)
             (interp h (while_loop fuel bound x_marginals x_S k y) w2).
Proof.
  induction fuel as [|fuel IH]; intros k y w1 w2 Hw; simpl.
  - destruct (k <? bound); apply (agree_ret eq); auto.
  - destruct (k <? bound); [|apply (agree_ret eq); auto].
    destruct (x_marginals !! Z.to_nat k) as [x_k|]; [|apply (agree_ret eq); auto].
    unfold bind_result.
    eapply agree_vis; [reflexivity|exact Hw|].
    intros p ? v1 v2 <- Hv.
    destruct p as [p|e]; [apply IH; exact Hv|apply (agree_ret eq); auto].
Qed.

Lemma agree_averaged_prediction s1 s2 x_marginals x_S (w1 w2 : world) :
  same_but_seed s1 s2 -> same_but_sampler w1 w2 ->
  agree eq (interp h (averaged_prediction s1 x_marginals x_S) w1)
           (interp h (averaged_prediction s2 x_marginals x_S) w2).
Proof.
  intros (_ & _ & _ & _ & _ & Hssz & _) Hw.
  unfold averaged_prediction, bind_result. rewrite Hssz.
  eapply agree_bind; [apply agree_while_loop; exact Hw|].
  intros r ? v1 v2 <- Hv.
  destruct r as [ky|e]; [destruct (ky.1 =? 0)|]; apply (agree_ret eq); auto.
Qed.

Lemma agree_draw_marginals s1 s2 k (w1 w2 : world) :
  same_but_seed s1 s2 -> same_but_sampler w1 w2 ->
  agree eq (interp h (draw_marginals s1 k) w1) (interp h (draw_marginals s2 k) w2).
Proof.
  intros (_ & _ & _ & Hdv & [d Hd] & _) Hw.
  unfold draw_marginals. rewrite <- Hdv, Hd. apply (agree_ret eq); auto.
Qed.

Lemma agree_sweep s1 s2 x_i y_i :
  same_but_seed s1 s2 ->
  forall chain x_S sample_loss (w1 w2 : world),
    same_but_sampler w1 w2 ->
    agree eq (interp h (sweep s1 x_i y_i chain x_S sample_loss) w1)
             (interp h (sweep s2 x_i y_i chain x_S sample_loss) w2).
Proof.
  intros Hs. pose proof Hs as (_ & _ & Hloss & _ & _ & Hssz & _ & Htr).
  induction chain as [|feature rest IH]; intros x_S sample_loss w1 w2 Hw; simpl.
  - apply (agree_ret eq); auto.
  - destruct (x_i !! feature) as [v|]; [|apply (agree_ret eq); auto].
    rewrite Hssz.
    eapply agree_bind; [apply agree_draw_marginals; eauto|].
    intros xs ? v1 v2 <- Hv. unfold bind_result.
    eapply agree_bind; [apply agree_averaged_prediction; eauto|].
    intros ry ? u1 u2 <- Hu. destruct ry as [y|e]; [|apply (agree_ret eq); auto].
    rewrite Hloss, Htr.
    destruct (SAGE_trackers s2 !! feature) as [t|]; [|apply (agree_ret eq); auto].
    eapply agree_vis; [reflexivity|exact Hu|].
    intros ? ? z1 z2 _ Hz. apply IH. exact Hz.
Qed.

Lemma agree_contributions s1 s2 x_i y_i (w1 w2 : world) :
  same_but_seed s1 s2 -> same_but_sampler w1 w2 ->
  agree eq (interp h (contributions s1 x_i y_i) w1)
           (interp h (contributions s2 x_i y_i) w2).
Proof.
  intros Hs Hw.
  pose proof Hs as (Hn & _ & Hloss & Hdv & [d Hd] & _ & Hmp & _).
  unfold contributions. rewrite Hn, <- Hdv, Hd, Hmp, Hloss.
  eapply agree_vis; [reflexivity|exact Hw|].
  intros chain ? v1 v2 <- Hv.
  eapply agree_bind; [apply (agree_ret eq); [reflexivity|exact Hv]|].
  intros xm ? u1 u2 <- Hu.
  destruct (xm !! 0%nat) as [x_0|]; [|apply (agree_ret eq); auto].
  unfold bind_result.
  eapply agree_vis; [reflexivity|exact Hu|].
  intros p ? z1 z2 <- Hz. destruct p as [p|e]; [|apply (agree_ret eq); auto].
  eapply agree_vis; [reflexivity|exact Hz|].
  intros ? ? a1 a2 _ Ha.
  eapply agree_vis; [reflexivity|exact Ha|].
  intros smoothed ? b1 b2 <- Hb. apply agree_sweep; assumption.
Qed.

Lemma agree_SAGE_values_from s1 s2 :
  same_but_seed s1 s2 ->
  forall names acc (w1 w2 : world),
    same_but_sampler w1 w2 ->
    agree eq (interp h (SAGE_values_from s1 names acc) w1)
             (interp h (SAGE_values_from s2 names acc) w2).
Proof.
  intros (_ & _ & _ & _ & _ & _ & _ & Htr).
  induction names as [|n ns IH]; intros acc w1 w2 Hw; simpl.
  - apply (agree_ret eq); auto.
  - rewrite Htr. destruct (SAGE_trackers s2 !! n) as [t|]; [|apply (agree_ret eq); auto].
    eapply agree_vis; [reflexivity|exact Hw|].
    intros v ? v1 v2 <- Hv. apply IH. exact Hv.
Qed.

Lemma same_but_seed_step s1 s2 :
  same_but_seed s1 s2 ->
  same_but_seed (set_seen_samples s1 (seen_samples s1 + 1))
                (set_seen_samples s2 (seen_samples s2 + 1)).
Proof.
  intros (H1 & H2 & H3 & H4 & H5 & H6 & H7 & H8).
  unfold same_but_seed; simpl. rewrite H2. repeat split; assumption.
Qed.

Lemma agree_finish s1 s2 x_i y_i (w1 w2 : world) :
  same_but_seed s1 s2 -> same_but_sampler w1 w2 ->
  agree alike (interp h (finish s1 x_i y_i) w1) (interp h (finish s2 x_i y_i) w2).
Proof.
  intros Hs Hw. pose proof (same_but_seed_step _ _ Hs) as Hs'.
  pose proof Hs as (Hn & _ & _ & Hdv & [d Hd] & _).
  unfold finish. simpl. rewrite <- Hdv, Hd.
  eapply agree_bind; [apply (agree_ret eq); [reflexivity|exact Hw]|].
  intros ? ? v1 v2 _ Hv. unfold SAGE_values. simpl. rewrite Hn.
  eapply agree_bind; [apply agree_SAGE_values_from; eauto|].
  intros values ? u1 u2 <- Hu. apply (agree_ret alike); [|exact Hu].
  split; [exact Hs'|reflexivity].
Qed.

Lemma agree_explain_one s1 s2 x_i y_i (w1 w2 : world) :
  same_but_seed s1 s2 -> same_but_sampler w1 w2 ->
  agree alike (interp h (explain_one s1 x_i y_i) w1)
              (interp h (explain_one s2 x_i y_i) w2).
Proof.
  intros Hs Hw. pose proof Hs as (_ & Hseen & _).
  unfold explain_one. rewrite Hseen.
  destruct (seen_samples s2 <? 1); [apply agree_finish; assumption|].
  eapply agree_bind; [apply agree_contributions; eauto|].
  intros r ? v1 v2 <- Hv. destruct r as [final|e].
  - apply agree_finish; assumption.
  - apply (agree_ret alike); [|exact Hv]. split; [exact Hs|reflexivity].
Qed.

Lemma explain_all_agree examples :
  forall s1 s2 (w1 w2 : world),
    same_but_seed s1 s2 -> same_but_sampler w1 w2 ->
    (explain_all permutation sampler_update sampler_sample model_fn s1 w1 examples).1.1 =
    (explain_all permutation sampler_update sampler_sample model_fn s2 w2 examples).1.1.
Proof.
  induction examples as [|[x_i y_i] rest IH]; intros s1 s2 w1 w2 Hs Hw; simpl.
  - reflexivity.
  - destruct (agree_explain_one s1 s2 x_i y_i w1 w2 Hs Hw) as [[Hs' Hr] Hw'].
    fold h.
    destruct (interp h (explain_one s1 x_i y_i) w1) as [[[s1' r1] v1] tr1].
    destruct (interp h (explain_one s2 x_i y_i) w2) as [[[s2' r2] v2] tr2].
    simpl in *. specialize (IH s1' s2' v1 v2 Hs' Hw').
    destruct (explain_all _ _ _ _ s1' v1 rest) as [[snaps1 ?] ?].
    destruct (explain_all _ _ _ _ s2' v2 rest) as [[snaps2 ?] ?].
    simpl in *. congruence.
Qed.

Lemma init_same_but_seed names loss rs1 rs2 ssz dv s1 s2 :
  __init__ names loss rs1 ssz (Some dv) = OK s1 ->
  __init__ names loss rs2 ssz (Some dv) = OK s2 ->
  same_but_seed s1 s2.
Proof.
  unfold __init__. destruct (negb _); [discriminate|].
  destruct (defaults_dict _ _ _) as [d|]; [|discriminate].
  intros E1 E2. inversion E1; inversion E2; subst.
  unfold same_but_seed; simpl. repeat split; eauto.
Qed.

End Determinism.

(** C4, as the code has it. Two estimators constructed with the same
    feature names, loss, sub-sample size and default values, whatever
    their [random_state], run with the same deterministic model on the
    same examples, each run starting with numpy's global generator in the
    same state and with the trackers as constructed: the snapshots (or
    exceptions) of the two runs are the same, call by call. *)
Theorem fixed_default_snapshots_follow_generator {G Smp : Type}
    (permutation : G -> list string -> list string * G)
    (sampler_update : Smp -> Sage.dict -> Q -> Smp)
    (sampler_sample : Smp -> Z -> list Sage.dict * Smp)
    (model_fn : Sage.dict -> result Q)
    (names : list string) (loss : string) (seed1 seed2 : option Z)
    (sub_sample_size : Z) (defaults : list Q)
    (s1 s2 : Sage.IncrementalSAGE) (w1 w2 : @SageEnv.world G Smp)
    (examples : list (Sage.dict * Q)) :
  Sage.__init__ names loss seed1 sub_sample_size (Some defaults) = OK s1 ->
  Sage.__init__ names loss seed2 sub_sample_size (Some defaults) = OK s2 ->
  SageEnv.np_random w1 = SageEnv.np_random w2 ->
  SageEnv.trackers w1 = SageEnv.fresh_trackers ->
  SageEnv.trackers w2 = SageEnv.fresh_trackers ->
  (SageEnv.explain_all permutation sampler_update sampler_sample model_fn
     s1 w1 examples).1.1 =
  (SageEnv.explain_all permutation sampler_update sampler_sample model_fn
     s2 w2 examples).1.1.
Proof.
  intros H1 H2 Hg Ht1 Ht2. apply explain_all_agree.
  - eapply init_same_but_seed; eauto.
  - split; [exact Hg|congruence].
Qed.

Lemma fixed_default_snapshots_follow_generator_witness :
  Sage.__init__ ["a"; "b"]%string "mse" (Some 7) 1 (Some [0%Q; 0%Q])
    = OK SageExample.default_estimator /\
  Sage.__init__ ["a"; "b"]%string "mse" (Some 8) 1 (Some [0%Q; 0%Q])
    = OK SageExample.other_seed_estimator /\
  (SageEnv.explain_all SageExample.permutation SageExample.sampler_update
     SageExample.sampler_sample SageExample.model_fn
     SageExample.default_estimator (SageExample.initial_world 0)
     SageExample.examples).1.1 =
  (SageEnv.explain_all SageExample.permutation SageExample.sampler_update
     SageExample.sampler_sample SageExample.model_fn
     SageExample.other_seed_estimator
     (SageEnv.World 0%nat [SageExample.x_22] SageEnv.fresh_trackers)
     SageExample.examples).1.1.
Proof.
  split; [reflexivity|]. split; [reflexivity|].
  exact (fixed_default_snapshots_follow_generator
           SageExample.permutation SageExample.sampler_update
           SageExample.sampler_sample SageExample.model_fn
           ["a"; "b"]%string "mse" (Some 7) (Some 8) 1 [0%Q; 0%Q]
           SageExample.default_estimator SageExample.other_seed_estimator
           (SageExample.initial_world 0)
           (SageEnv.World 0%nat [SageExample.x_22] SageEnv.fresh_trackers)
           SageExample.examples eq_refl eq_refl eq_refl eq_refl eq_refl).
Defined.

(** ** The marginal imputer leaves the objects it is given alone *)

Section ImputerFacts.
Import MarginalImputer.
Variable h0 : heap.

Lemma keeps_ret {A} (a : A) (post : A -> Prop) : post a -> keeps h0 (ret a) post.
Proof.
  intros Hp h tr h' r Hsub [_ E]. inversion E; subst.
  split; [exact Hsub|]. intros a' Ea. inversion Ea; subst. exact Hp.
Qed.

Lemma keeps_raise {A} (e : exn) (post : A -> Prop) : keeps h0 (raise e) post.
Proof.
  intros h tr h' r Hsub [_ E]. inversion E; subst.
  split; [exact Hsub|]. intros a' Ea. discriminate Ea.
Qed.

Lemma keeps_bind {A B} (m : M A) (f : A -> M B) (mid : A -> Prop) (post : B -> Prop) :
  keeps h0 m mid ->
  (forall a, mid a -> keeps h0 (f a) post) ->
  keeps h0 (bindM m f) post.
Proof.
  intros Hm Hf h tr h' r Hsub Hrun. unfold bindM in Hrun.
  apply runs_bind in Hrun as (tr1 & [h1 r1] & tr2 & H1 & H2 & ->).
  apply Hm in H1 as [Hsub1 Hmid]; [|exact Hsub]. simpl in H2.
  destruct r1 as [a|e].
  - eapply (Hf a); eauto.
  - destruct H2 as [_ E]. inversion E; subst.
    split; [exact Hsub1|]. intros b Eb. discriminate Eb.
Qed.

Lemma keeps_weaken {A} (m : M A) (post post' : A -> Prop) :
  keeps h0 m post -> (forall a, post a -> post' a) -> keeps h0 m post'.
Proof.
  intros Hm Hw h tr h' r Hsub Hrun.
  destruct (Hm h tr h' r Hsub Hrun) as [H1 H2]. split; auto.
Qed.

Lemma keeps_randrange n : keeps h0 (randrange n) (fun _ => True).
Proof.
  intros h tr h' r Hsub. unfold randrange. destruct (n <=? 0); simpl.
  - intros [_ E]. inversion E; subst. auto.
  - intros (v & tr' & _ & _ & _ & E). inversion E; subst. auto.
Qed.

Lemma keeps_index features rand_idx : keeps h0 (index features rand_idx) (fun _ => True).
Proof.
  unfold index. destruct (_ && _); [destruct (features !! _)|];
    auto using keeps_ret, keeps_raise.
Qed.

(** A copy is an object the heap at the start did not have. *)
Lemma keeps_copy d : keeps h0 (copy d) (fun d' => h0 !! d' = None).
Proof.
  intros h tr h' r Hsub. unfold copy.
  destruct (h !! d) as [content|]; intros [_ E]; inversion E; subst.
  - assert (Hfresh : h !! fresh (dom h) = None)
      by (apply not_elem_of_dom, is_fresh).
    split.
    + etrans; [exact Hsub|]. apply insert_subseteq. exact Hfresh.
    + intros a Ea. inversion Ea; subst.
      eapply lookup_weaken_None; [exact Hfresh|exact Hsub].
  - split; [exact Hsub|]. intros a Ea. discriminate Ea.
Qed.

Lemma keeps_getitem d key : keeps h0 (getitem d key) (fun _ => True).
Proof.
  intros h tr h' r Hsub. unfold getitem.
  destruct (h !! d) as [content|]; [destruct (content !! key)|];
    intros [_ E]; inversion E; subst; auto.
Qed.

Lemma subseteq_insert_new (h : heap) d content :
  h0 ⊆ h -> h0 !! d = None -> h0 ⊆ <[d := content]> h.
Proof.
  intros Hsub Hnew. apply map_subseteq_spec. intros l c Hl.
  destruct (decide (l = d)) as [->|Hne]; [congruence|].
  rewrite lookup_insert_ne by congruence.
  eapply lookup_weaken; eauto.
Qed.

(** Writing into an object that the heap at the start did not have. *)
Lemma keeps_setitem_dict d key v :
  h0 !! d = None -> keeps h0 (setitem_dict d key v) (fun _ => True).
Proof.
  intros Hnew h tr h' r Hsub. unfold setitem_dict.
  destruct (h !! d) as [content|]; intros [_ E]; inversion E; subst; auto.
  split; [|auto]. apply subseteq_insert_new; assumption.
Qed.

Lemma keeps_predict_one d :
  h0 !! d = None -> keeps h0 (predict_one d) (fun _ => True).
Proof.
  intros Hnew h tr h' r Hsub. unfold predict_one.
  destruct (h !! d) as [content|]; simpl.
  - intros (answer & tr' & _ & _ & _ & E). inversion E; subst.
    split; [|auto]. apply subseteq_insert_new; assumption.
  - intros [_ E]. inversion E; subst. auto.
Qed.

Lemma keeps_project sampled_instance :
  forall feature_subset acc,
    keeps h0 (project sampled_instance feature_subset acc) (fun _ => True).
Proof.
  induction feature_subset as [|f fs IH]; intros acc; simpl.
  - apply keeps_ret. exact I.
  - eapply keeps_bind; [apply keeps_getitem|]. intros v _. apply IH.
Qed.

Lemma keeps_sample_marginals features feature_subset :
  keeps h0 (_sample_marginals features feature_subset) (fun _ => True).
Proof.
  unfold _sample_marginals.
  eapply keeps_bind; [apply keeps_randrange|]. intros rand_idx _.
  eapply keeps_bind; [apply keeps_index|]. intros stored _.
  eapply keeps_bind; [apply keeps_copy|]. intros sampled_instance _.
  apply keeps_project.
Qed.

Lemma keeps_sample_product_marginals features :
  forall feature_subset acc,
    keeps h0 (_sample_product_marginals_from features feature_subset acc) (fun _ => True).
Proof.
  induction feature_subset as [|f fs IH]; intros acc; simpl.
  - apply keeps_ret. exact I.
  - eapply keeps_bind; [apply keeps_randrange|]. intros rand_idx _.
    eapply keeps_bind; [apply keeps_index|]. intros stored _.
    eapply keeps_bind; [apply keeps_copy|]. intros copied _.
    eapply keeps_bind; [apply keeps_getitem|]. intros v _. apply IH.
Qed.

Lemma keeps_sample self storage feature_subset :
  keeps h0 (_sample self storage feature_subset) (fun _ => True).
Proof.
  unfold _sample. destruct (bool_decide _).
  - apply keeps_sample_marginals.
  - apply keeps_sample_product_marginals.
Qed.

Lemma keeps_overwrite new_x_i sampled_values :
  h0 !! new_x_i = None ->
  forall feature_subset,
    keeps h0 (overwrite new_x_i feature_subset sampled_values) (fun _ => True).
Proof.
  intros Hnew. induction feature_subset as [|key rest IH]; simpl.
  - apply keeps_ret. exact I.
  - destruct (sampled_values !! key) as [v|]; [|apply keeps_raise].
    eapply keeps_bind; [apply keeps_setitem_dict; exact Hnew|]. intros _ _. exact IH.
Qed.

Lemma keeps_impute_from self feature_subset x_i :
  forall n predictions,
    keeps h0 (impute_from self feature_subset x_i n predictions) (fun _ => True).
Proof.
  induction n as [|n IH]; intros predictions; simpl.
  - apply keeps_ret. exact I.
  - eapply keeps_bind; [apply keeps_sample|]. intros sampled_values _.
    eapply keeps_bind; [apply keeps_copy|]. intros new_x_i Hnew.
    eapply keeps_bind; [apply keeps_overwrite; exact Hnew|]. intros _ _.
    eapply keeps_bind; [apply keeps_predict_one; exact Hnew|]. intros prediction _.
    apply IH.
Qed.

End ImputerFacts.

(** C10. A call [impute(feature_subset, x_i, n_samples)] on a caller's
    dict [x_i] and a storage of dicts, whatever the generator and the model
    answer, whether the call returns or raises, and even if the model
    changes the dict it is handed: every dict object that existed before
    the call has afterwards the content it had before; so have the
    caller's [x_i] and every feature vector held by the storage. *)
Theorem impute_leaves_its_inputs_unchanged (self : MarginalImputer.t)
    (feature_subset : list string) (x_i : positive) (n_samples : Z)
    (h : gmap positive (gmap string Q))
    (tr : list (event MarginalImputer.impE))
    (h' : gmap positive (gmap string Q)) (r : result (list Q)) :
  is_Some (h !! x_i) ->
  Forall (fun d => is_Some (h !! d))
    (MarginalImputer._storage_x (MarginalImputer.storage_object self)) ->
  runs MarginalImputer.any_answer
    (MarginalImputer.impute self feature_subset x_i n_samples h) tr (h', r) ->
  (forall d content, h !! d = Some content -> h' !! d = Some content) /\
  h' !! x_i = h !! x_i /\
  Forall (fun d => h' !! d = h !! d)
    (MarginalImputer._storage_x (MarginalImputer.storage_object self)).
Proof.
  intros Hx Hst Hrun.
  assert (Hsub : h ⊆ h').
  { eapply (keeps_impute_from h self feature_subset x_i); [|exact Hrun]. reflexivity. }
  assert (Hframe : forall d, is_Some (h !! d) -> h' !! d = h !! d).
  { intros d [content Hd]. rewrite Hd. eapply lookup_weaken; eauto. }
  split; [intros d content Hd; eapply lookup_weaken; eauto|].
  split; [apply Hframe, Hx|].
  eapply Forall_impl; [exact Hst|]. intros d Hd. apply Hframe, Hd.
Qed.

Lemma impute_leaves_its_inputs_unchanged_witness :
  exists tr h' r,
    is_Some (ImputerExample.heap_before !! 1%positive) /\
    Forall (fun d => is_Some (ImputerExample.heap_before !! d))
      (MarginalImputer._storage_x (MarginalImputer.storage_object ImputerExample.imputer)) /\
    runs MarginalImputer.any_answer
      (MarginalImputer.impute ImputerExample.imputer ["a"%string] 1%positive 2
         ImputerExample.heap_before) tr (h', r) /\
    r = OK [5%Q; 5%Q] /\
    h' !! 1%positive = ImputerExample.heap_before !! 1%positive.
Proof.
  pose (t := MarginalImputer.impute ImputerExample.imputer ["a"%string] 1%positive 2
               ImputerExample.heap_before).
  pose proof (interp_runs MarginalImputer.any_answer ImputerExample.handler t
                (fun _ _ _ => I) tt) as Hrun.
  assert (E : (interp ImputerExample.handler t tt).1.1.2 = OK [5%Q; 5%Q])
    by (vm_compute; reflexivity).
  destruct (interp ImputerExample.handler t tt) as [[[h' r] w] tr].
  cbn [fst snd] in Hrun, E. subst r.
  assert (H1 : is_Some (ImputerExample.heap_before !! 1%positive))
    by (eexists; reflexivity).
  assert (H2 : Forall (fun d => is_Some (ImputerExample.heap_before !! d))
                 (MarginalImputer._storage_x
                    (MarginalImputer.storage_object ImputerExample.imputer)))
    by (repeat constructor; eexists; reflexivity).
  exists tr, h', (OK [5%Q; 5%Q]).
  split; [exact H1|]. split; [exact H2|]. split; [exact Hrun|]. split; [reflexivity|].
  exact (proj1 (proj2 (impute_leaves_its_inputs_unchanged _ _ _ _ _ _ _ _ H1 H2 Hrun))).
Defined.

(** ** More on the reservoir store *)

Section ReservoirMore.
Import UniformReservoirStorage ReservoirHistory.
Context {X Y : Type}.
Implicit Types self : t X Y.

Lemma setitem_in_range {A} (l : list A) (j : Z) (a : A) :
  0 <= j < Z.of_nat (length l) -> setitem l j a = OK (<[Z.to_nat j := a]> l).
Proof.
  intros Hj. unfold setitem.
  rewrite andb_true_intro by (split; lia). reflexivity.
Qed.

Lemma history_reachable st sz items self :
  history st sz items self -> reachable st sz (length items) self.
Proof.
  induction 1 as [|items self x y tr self' r _ IH Hrun].
  - constructor.
  - rewrite length_app, Nat.add_1_r. econstructor; eauto.
Qed.

(** A call with room left appends and draws nothing. *)
Lemma update_with_room self x y tr self' r :
  Z.of_nat (length (_storage_x self)) < size self ->
  runs in_range (update self x y) tr (self', r) ->
  tr = [] /\ r = OK tt /\ size self' = size self /\
  store_targets self' = store_targets self /\
  _storage_x self' = _storage_x self ++ [x] /\
  _storage_y self' = if store_targets self then _storage_y self ++ [y]
                     else _storage_y self.
Proof.
  intros Hroom. unfold update.
  replace (Z.of_nat (length (_storage_x self)) <? size self) with true by lia.
  simpl. destruct (store_targets self) eqn:Hst; simpl;
    intros [-> E]; inversion E; subst; simpl; rewrite ?Hst; auto 10.
Qed.

(** A call on a full store whose lists are aligned overwrites one slot,
    the same in both lists, and raises nothing. *)
Lemma update_when_full self x y tr self' r :
  0 < size self ->
  Z.of_nat (length (_storage_x self)) = size self ->
  (store_targets self = true -> length (_storage_y self) = length (_storage_x self)) ->
  runs in_range (update self x y) tr (self', r) ->
  r = OK tt /\ size self' = size self /\ store_targets self' = store_targets self /\
  exists j : nat,
    (j < length (_storage_x self))%nat /\
    _storage_x self' = <[j := x]> (_storage_x self) /\
    _storage_y self' = if store_targets self then <[j := y]> (_storage_y self)
                       else _storage_y self.
Proof.
  intros Hpos Hlen Hal. unfold update. rewrite Hlen, Z.ltb_irrefl.
  unfold randint. replace (size self <? 1) with false by lia. simpl.
  intros (v & tr1 & Hv & _ & H). simpl in Hv.
  replace (v <=? size self) with true in H by lia.
  unfold randrange in H. replace (size self <=? 0) with false in H by lia.
  simpl in H. destruct H as (j & tr2 & Hj & _ & H). simpl in Hj.
  rewrite setitem_in_range in H by lia. simpl in H.
  destruct (store_targets self) eqn:Hst.
  - rewrite setitem_in_range in H by (rewrite Hal by reflexivity; lia).
    destruct H as [_ E]. inversion E; subst; simpl.
    repeat split; auto. exists (Z.to_nat j). repeat split; auto. lia.
  - destruct H as [_ E]. inversion E; subst; simpl.
    repeat split; auto. exists (Z.to_nat j). repeat split; auto. lia.
Qed.

Lemma reachable_length st sz n self :
  0 <= sz -> reachable st sz n self ->
  Z.of_nat (length (_storage_x self)) = Z.min (Z.of_nat n) sz.
Proof.
  intros Hsz Hr.
  induction Hr as [|n self x y tr self' r Hr IH Hrun].
  - simpl. lia.
  - destruct (reachable_store_inv st sz n self Hsz Hr) as (Hs & Hst & Hle & Hal).
    destruct (Z_lt_le_dec (Z.of_nat (length (_storage_x self))) sz) as [Hroom|Hfull].
    + rewrite <- Hs in Hroom.
      destruct (update_with_room _ _ _ _ _ _ Hroom Hrun) as (_ & _ & _ & _ & Hx & _).
      rewrite Hx, length_app. simpl. lia.
    + destruct (Z.eq_dec sz 0) as [Hz|Hnz].
      * (* capacity 0: the call raises and leaves the store *)
        unfold update in Hrun.
        replace (Z.of_nat (length (_storage_x self)) <? size self)
          with false in Hrun by lia.
        unfold randint in Hrun.
        replace (Z.of_nat (length (_storage_x self)) <? 1) with true in Hrun by lia.
        simpl in Hrun. destruct Hrun as [_ E]. inversion E; subst. lia.
      * assert (Hlen : Z.of_nat (length (_storage_x self)) = size self) by lia.
        destruct (update_when_full self x y tr self' r)
          as (_ & _ & _ & j & _ & Hx & _);
          [lia|exact Hlen|rewrite Hst; exact Hal|exact Hrun|].
        rewrite Hx, length_insert. lia.
Qed.

(** Without capacity the store stays as constructed. *)
Lemma reachable_without_capacity st sz n self :
  sz <= 0 -> reachable st sz n self -> self = __init__ st sz.
Proof.
  intros Hsz. induction 1 as [|n self x y tr self' r _ IH Hrun].
  - reflexivity.
  - subst self. unfold update, __init__, randint in Hrun. simpl in Hrun.
    change (Z.of_nat 0) with 0 in Hrun.
    replace (0 <? sz) with false in Hrun by lia. simpl in Hrun.
    destruct Hrun as [_ E]. inversion E. reflexivity.
Qed.

(** While at most [sz] items have been offered the store holds them all,
    in the order offered. *)
Lemma history_filling st sz items self :
  history st sz items self ->
  Z.of_nat (length items) <= sz ->
  size self = sz /\ store_targets self = st /\
  _storage_x self = items.*1 /\
  _storage_y self = if st then items.*2 else [].
Proof.
  induction 1 as [|items self x y tr self' r _ IH Hrun]; intros Hlen.
  - simpl. destruct st; auto.
  - rewrite length_app in Hlen. simpl in Hlen.
    destruct IH as (Hs & Hst & Hx & Hy); [lia|].
    destruct (update_with_room self x y tr self' r) as (_ & _ & Hs' & Hst' & Hx' & Hy');
      [rewrite Hx, Hs, length_fmap; lia|exact Hrun|].
    rewrite !fmap_app. simpl. rewrite Hx', Hy', Hx, Hy, Hst. repeat split; try congruence.
    destruct st; reflexivity.
Qed.

Lemma history_from_history st sz items self :
  0 <= sz -> history st sz items self -> from_history st items self.
Proof.
  intros Hsz. induction 1 as [|items self x y tr self' r Hh IH Hrun].
  - unfold from_history; simpl. repeat split; auto; intros; discriminate.
  - pose proof (reachable_store_inv st sz _ self Hsz (history_reachable _ _ _ _ Hh))
      as (Hs & Hst & Hle & Hal).
    destruct IH as (Hx & Hxy & Hy).
    assert (Hnew : (x, y) ∈ items ++ [(x, y)]) by (apply elem_of_app; right; constructor).
    assert (Hold : forall p, p ∈ items -> p ∈ items ++ [(x, y)])
      by (intros p Hp; apply elem_of_app; left; exact Hp).
    assert (Hold1 : forall a, a ∈ items.*1 -> a ∈ (items ++ [(x, y)]).*1)
      by (intros a Ha; rewrite fmap_app; apply elem_of_app; left; exact Ha).
    assert (Hnew1 : x ∈ (items ++ [(x, y)]).*1)
      by (rewrite fmap_app; apply elem_of_app; right; constructor).
    destruct (Z_lt_le_dec (Z.of_nat (length (_storage_x self))) sz) as [Hroom|Hfull].
    + rewrite <- Hs in Hroom.
      destruct (update_with_room _ _ _ _ _ _ Hroom Hrun) as (_ & _ & _ & _ & Hx' & Hy').
      rewrite Hst in Hy'. unfold from_history. rewrite Hx', Hy'. repeat split.
      * intros i a Hi. apply lookup_app_Some in Hi as [Hi|[_ Hi]]; [eauto|].
        apply list_lookup_singleton_Some in Hi as [_ <-]. exact Hnew1.
      * intros -> i a b Hi Hj. specialize (Hal eq_refl).
        apply lookup_app_Some in Hi as [Hi|[Hge Hi]].
        -- apply lookup_app_Some in Hj as [Hj|[Hge' _]]; [eauto|].
           apply lookup_lt_Some in Hi. lia.
        -- apply lookup_app_Some in Hj as [Hj|[_ Hj]].
           ++ apply lookup_lt_Some in Hj. lia.
           ++ rewrite Hal in Hj.
              apply list_lookup_singleton_Some in Hi as [_ <-].
              apply list_lookup_singleton_Some in Hj as [_ <-]. exact Hnew.
      * intros ->. auto.
    + destruct (Z.eq_dec sz 0) as [Hz|Hnz].
      * unfold update in Hrun.
        replace (Z.of_nat (length (_storage_x self)) <? size self)
          with false in Hrun by lia.
        unfold randint in Hrun.
        replace (Z.of_nat (length (_storage_x self)) <? 1) with true in Hrun by lia.
        simpl in Hrun. destruct Hrun as [_ E]. inversion E; subst self'.
        unfold from_history. repeat split; eauto.
      * assert (Hlen : Z.of_nat (length (_storage_x self)) = size self) by lia.
        destruct (update_when_full self x y tr self' r)
          as (_ & _ & _ & j & Hj & Hx' & Hy');
          [lia|exact Hlen|rewrite Hst; exact Hal|exact Hrun|].
        rewrite Hst in Hy'. unfold from_history. rewrite Hx', Hy'. repeat split.
        -- intros i a Hi. destruct (decide (i = j)) as [->|Hne].
           ++ rewrite list_lookup_insert_eq in Hi by exact Hj. inversion Hi; subst.
              exact Hnew1.
           ++ rewrite list_lookup_insert_ne in Hi by congruence. eauto.
        -- intros -> i a b Hi Hk. specialize (Hal eq_refl).
           destruct (decide (i = j)) as [->|Hne].
           ++ rewrite list_lookup_insert_eq in Hi by exact Hj.
              rewrite list_lookup_insert_eq in Hk by (rewrite Hal; exact Hj).
              inversion Hi; inversion Hk; subst. exact Hnew.
           ++ rewrite list_lookup_insert_ne in Hi by congruence.
              rewrite list_lookup_insert_ne in Hk by congruence. eauto.
        -- intros ->. auto.
Qed.

End ReservoirMore.

(** X1. After [n] calls of [update] a store of capacity [sz >= 0] holds
    [min(n, sz)] feature vectors. *)
Theorem reservoir_occupancy {X Y : Type} (st : bool) (sz : Z) (n : nat)
    (self : UniformReservoirStorage.t X Y) :
  0 <= sz ->
  UniformReservoirStorage.reachable st sz n self ->
  UniformReservoirStorage.__len__ self = Z.min (Z.of_nat n) sz.
Proof. intros Hsz Hr. exact (reachable_length st sz n self Hsz Hr). Qed.

(** The store of capacity 1 with targets, offered ("a", 1), and then
    ("b", 2). *)
Lemma history_example_one :
  ReservoirHistory.history true 1 [("a"%string, 1)]
    (UniformReservoirStorage.Build 1 true ["a"%string] [1]).
Proof.
  eapply (ReservoirHistory.history_update true 1 []
            (UniformReservoirStorage.__init__ true 1) "a"%string 1 _ _ (OK tt));
    [apply ReservoirHistory.history_init|].
  simpl. split; reflexivity.
Defined.

Lemma update_example :
  runs UniformReservoirStorage.in_range
    (UniformReservoirStorage.update
       (UniformReservoirStorage.Build 1 true ["a"%string] [1]) "b"%string 2)
    [Ev (UniformReservoirStorage.RandInt 1 1) 1;
     Ev (UniformReservoirStorage.RandRange 1) 0]
    (UniformReservoirStorage.Build 1 true ["b"%string] [2], OK tt).
Proof.
  simpl. exists 1, [Ev (UniformReservoirStorage.RandRange 1) 0].
  split; [simpl; lia|]. split; [reflexivity|].
  exists 0, []. split; [simpl; lia|]. split; [reflexivity|].
  simpl. split; reflexivity.
Defined.

Lemma history_example :
  ReservoirHistory.history true 1 [("a"%string, 1); ("b"%string, 2)]
    (UniformReservoirStorage.Build 1 true ["b"%string] [2]).
Proof.
  exact (ReservoirHistory.history_update true 1 [("a"%string, 1)] _ _ _ _ _ _
           history_example_one update_example).
Defined.

Lemma reachable_example :
  UniformReservoirStorage.reachable true 1 2
    (UniformReservoirStorage.Build 1 true ["b"%string] [2]).
Proof. exact (history_reachable _ _ _ _ history_example). Defined.

Lemma reservoir_occupancy_witness :
  0 <= 1 /\
  UniformReservoirStorage.reachable true 1 2
    (UniformReservoirStorage.Build 1 true ["b"%string] [2]) /\
  UniformReservoirStorage.__len__
    (UniformReservoirStorage.Build 1 true ["b"%string] [2]) = Z.min (Z.of_nat 2) 1.
Proof.
  assert (H0 : 0 <= 1) by lia.
  split; [exact H0|]. split; [exact reachable_example|].
  exact (reservoir_occupancy true 1 2 _ H0 reachable_example).
Defined.

(** X2. A store of capacity at least 1 never makes [update] raise,
    whatever it was offered before and whatever the generator answers. *)
Theorem update_never_raises_with_capacity {X Y : Type} (st : bool) (sz : Z) (n : nat)
    (self self' : UniformReservoirStorage.t X Y) (x : X) (y : Y)
    (tr : list (event UniformReservoirStorage.randE)) (r : result unit) :
  1 <= sz ->
  UniformReservoirStorage.reachable st sz n self ->
  runs UniformReservoirStorage.in_range (UniformReservoirStorage.update self x y) tr (self', r) ->
  r = OK tt.
Proof.
  intros Hsz Hr Hrun.
  destruct (reachable_store_inv st sz n self ltac:(lia) Hr) as (Hs & Hst & Hle & Hal).
  destruct (Z_lt_le_dec (Z.of_nat (length (UniformReservoirStorage._storage_x self))) sz)
    as [Hroom|Hfull].
  - rewrite <- Hs in Hroom.
    destruct (update_with_room _ _ _ _ _ _ Hroom Hrun) as (_ & -> & _). reflexivity.
  - destruct (update_when_full self x y tr self' r) as (-> & _);
      [lia|lia|rewrite Hst; exact Hal|exact Hrun|reflexivity].
Qed.

Lemma update_never_raises_with_capacity_witness :
  1 <= 1 /\
  UniformReservoirStorage.reachable true 1 1
    (UniformReservoirStorage.Build 1 true ["a"%string] [1]) /\
  runs UniformReservoirStorage.in_range
    (UniformReservoirStorage.update
       (UniformReservoirStorage.Build 1 true ["a"%string] [1]) "b"%string 2)
    [Ev (UniformReservoirStorage.RandInt 1 1) 1;
     Ev (UniformReservoirStorage.RandRange 1) 0]
    (UniformReservoirStorage.Build 1 true ["b"%string] [2], OK tt) /\
  OK tt = OK tt.
Proof.
  assert (H1 : 1 <= 1) by lia.
  pose proof (history_reachable _ _ _ _ history_example_one) as Hr.
  split; [exact H1|]. split; [exact Hr|]. split; [exact update_example|].
  exact (update_never_raises_with_capacity true 1 1 _ _ _ _ _ _ H1 Hr update_example).
Defined.

(** X3. A store of capacity 0 or less stays empty: every [update] raises
    ValueError, before any draw, and leaves the store as it was. *)
Theorem update_raises_without_capacity {X Y : Type} (st : bool) (sz : Z) (n : nat)
    (self self' : UniformReservoirStorage.t X Y) (x : X) (y : Y)
    (tr : list (event UniformReservoirStorage.randE)) (r : result unit) :
  sz <= 0 ->
  UniformReservoirStorage.reachable st sz n self ->
  runs UniformReservoirStorage.in_range (UniformReservoirStorage.update self x y) tr (self', r) ->
  r = Exn ValueError /\ tr = [] /\ self' = self /\
  UniformReservoirStorage._storage_x self = [].
Proof.
  intros Hsz Hr Hrun.
  rewrite (reachable_without_capacity st sz n self Hsz Hr) in *.
  unfold UniformReservoirStorage.update, UniformReservoirStorage.__init__,
    UniformReservoirStorage.randint in Hrun.
  simpl in Hrun. change (Z.of_nat 0) with 0 in Hrun.
  replace (0 <? sz) with false in Hrun by lia. simpl in Hrun.
  destruct Hrun as [-> E]. inversion E. auto.
Qed.

Lemma update_raises_without_capacity_witness :
  0 <= 0 /\
  UniformReservoirStorage.reachable false 0 0
    (UniformReservoirStorage.__init__ (X := string) (Y := Z) false 0) /\
  runs UniformReservoirStorage.in_range
    (UniformReservoirStorage.update
       (UniformReservoirStorage.__init__ (X := string) (Y := Z) false 0) "a"%string 1)
    [] (UniformReservoirStorage.__init__ false 0, Exn ValueError) /\
  (Exn ValueError = Exn (A := unit) ValueError /\
   @nil (event UniformReservoirStorage.randE) = [] /\
   UniformReservoirStorage.__init__ (X := string) (Y := Z) false 0
   = UniformReservoirStorage.__init__ false 0 /\
   UniformReservoirStorage._storage_x
     (UniformReservoirStorage.__init__ (X := string) (Y := Z) false 0) = []).
Proof.
  assert (H0 : 0 <= 0) by lia.
  assert (Hr : UniformReservoirStorage.reachable false 0 0
                 (UniformReservoirStorage.__init__ (X := string) (Y := Z) false 0))
    by constructor.
  assert (Hrun : runs UniformReservoirStorage.in_range
    (UniformReservoirStorage.update
       (UniformReservoirStorage.__init__ (X := string) (Y := Z) false 0) "a"%string 1)
    [] (UniformReservoirStorage.__init__ false 0, Exn ValueError))
    by (simpl; split; reflexivity).
  split; [exact H0|]. split; [exact Hr|]. split; [exact Hrun|].
  exact (update_raises_without_capacity false 0 0 _ _ _ _ _ _ H0 Hr Hrun).
Defined.

(** X4. While no more items have been offered than the capacity, the store
    holds all of them in the order offered, and their targets beside them
    when targets are stored (no targets at all otherwise). *)
Theorem reservoir_fills_in_order {X Y : Type} (st : bool) (sz : Z)
    (items : list (X * Y)) (self : UniformReservoirStorage.t X Y) :
  ReservoirHistory.history st sz items self ->
  Z.of_nat (length items) <= sz ->
  UniformReservoirStorage.get_data self = (items.*1, if st then items.*2 else []).
Proof.
  intros Hh Hlen. destruct (history_filling st sz items self Hh Hlen) as (_ & _ & Hx & Hy).
  unfold UniformReservoirStorage.get_data. rewrite Hx, Hy. reflexivity.
Qed.

Lemma reservoir_fills_in_order_witness :
  ReservoirHistory.history true 1 [("a"%string, 1)]
    (UniformReservoirStorage.Build 1 true ["a"%string] [1]) /\
  Z.of_nat (length [("a"%string, 1)]) <= 1 /\
  UniformReservoirStorage.get_data (UniformReservoirStorage.Build 1 true ["a"%string] [1])
  = ([("a"%string, 1)].*1, [("a"%string, 1)].*2).
Proof.
  assert (H1 : Z.of_nat (length [("a"%string, 1)]) <= 1) by (simpl; lia).
  split; [exact history_example_one|]. split; [exact H1|].
  exact (reservoir_fills_in_order true 1 _ _ history_example_one H1).
Defined.

(** X5. Every stored feature vector is one that was offered; when targets
    are stored, the target in a slot is the one that was offered together
    with the feature vector in that slot; when they are not, no target is
    ever stored. *)
Theorem stored_items_were_offered {X Y : Type} (st : bool) (sz : Z)
    (items : list (X * Y)) (self : UniformReservoirStorage.t X Y) :
  0 <= sz ->
  ReservoirHistory.history st sz items self ->
  (forall i x, UniformReservoirStorage._storage_x self !! i = Some x -> x ∈ items.*1) /\
  (st = true -> forall i x y,
     UniformReservoirStorage._storage_x self !! i = Some x ->
     UniformReservoirStorage._storage_y self !! i = Some y -> (x, y) ∈ items) /\
  (st = false -> UniformReservoirStorage._storage_y self = []).
Proof. intros Hsz Hh. exact (history_from_history st sz items self Hsz Hh). Qed.

Lemma stored_items_were_offered_witness :
  0 <= 1 /\
  ReservoirHistory.history true 1 [("a"%string, 1); ("b"%string, 2)]
    (UniformReservoirStorage.Build 1 true ["b"%string] [2]) /\
  (true = true -> forall i x y,
     ["b"%string] !! i = Some x -> [2] !! i = Some y ->
     (x, y) ∈ [("a"%string, 1); ("b"%string, 2)]).
Proof.
  assert (H0 : 0 <= 1) by lia.
  split; [exact H0|]. split; [exact history_example|].
  exact (proj1 (proj2 (stored_items_were_offered true 1 _ _ H0 history_example))).
Defined.

(** X6. Once as many items have been offered as a store of capacity at
    least 1 can hold, a further [update] replaces exactly one slot with the
    new feature vector, the same slot of the target list with the new
    target when targets are stored, and leaves every other slot. *)
Theorem update_replaces_one_slot {X Y : Type} (st : bool) (sz : Z) (n : nat)
    (self self' : UniformReservoirStorage.t X Y) (x : X) (y : Y)
    (tr : list (event UniformReservoirStorage.randE)) (r : result unit) :
  1 <= sz -> sz <= Z.of_nat n ->
  UniformReservoirStorage.reachable st sz n self ->
  runs UniformReservoirStorage.in_range (UniformReservoirStorage.update self x y) tr (self', r) ->
  exists j : nat,
    Z.of_nat j < sz /\
    UniformReservoirStorage._storage_x self' = <[j := x]> (UniformReservoirStorage._storage_x self) /\
    UniformReservoirStorage._storage_y self' =
      if st then <[j := y]> (UniformReservoirStorage._storage_y self)
      else UniformReservoirStorage._storage_y self.
Proof.
  intros Hsz Hn Hr Hrun.
  destruct (reachable_store_inv st sz n self ltac:(lia) Hr) as (Hs & Hst & Hle & Hal).
  pose proof (reachable_length st sz n self ltac:(lia) Hr) as Hlen.
  rewrite Z.min_r in Hlen by lia.
  destruct (update_when_full self x y tr self' r) as (_ & _ & _ & j & Hj & Hx & Hy);
    [lia|lia|rewrite Hst; exact Hal|exact Hrun|].
  rewrite Hst in Hy. exists j. split; [lia|]. split; assumption.
Qed.

Lemma update_replaces_one_slot_witness :
  1 <= 1 /\ 1 <= Z.of_nat 1 /\
  UniformReservoirStorage.reachable true 1 1
    (UniformReservoirStorage.Build 1 true ["a"%string] [1]) /\
  runs UniformReservoirStorage.in_range
    (UniformReservoirStorage.update
       (UniformReservoirStorage.Build 1 true ["a"%string] [1]) "b"%string 2)
    [Ev (UniformReservoirStorage.RandInt 1 1) 1;
     Ev (UniformReservoirStorage.RandRange 1) 0]
    (UniformReservoirStorage.Build 1 true ["b"%string] [2], OK tt) /\
  exists j : nat,
    Z.of_nat j < 1 /\ ["b"%string] = <[j := "b"%string]> ["a"%string] /\
    [2] = <[j := 2]> [1].
Proof.
  assert (H1 : 1 <= 1) by lia.
  assert (H2 : 1 <= Z.of_nat 1) by (simpl; lia).
  pose proof (history_reachable _ _ _ _ history_example_one) as Hr.
  split; [exact H1|]. split; [exact H2|]. split; [exact Hr|].
  split; [exact update_example|].
  exact (update_replaces_one_slot true 1 1 _ _ _ _ _ _ H1 H2 Hr update_example).
Defined.

(** ** More on the estimator *)


Section SageMoreFacts.
Import Sage SageEnv SageMore.

Lemma init_well_formed names loss rs ssz dv self :
  __init__ names loss rs ssz dv = OK self -> well_formed self.
Proof.
  intros Hinit f Hf.
  destruct (init_fields _ _ _ _ _ _ Hinit) as (Hn & _ & Htr & _).
  rewrite Htr, trackers_dict_lookup. rewrite Hn in Hf.
  rewrite bool_decide_eq_true_2 by exact Hf. reflexivity.
Qed.


Lemma foldl_put_lookup (l : list (string * Q)) (f : string) :
  forall acc : dict,
    is_Some (foldl put acc l !! f) <-> f ∈ l.*1 \/ is_Some (acc !! f).
Proof.
  induction l as [|[g v] l IH]; intros acc; simpl.
  - rewrite elem_of_nil. tauto.
  - rewrite IH. unfold put. simpl. rewrite elem_of_cons.
    destruct (decide (f = g)) as [->|Hne].
    + rewrite lookup_insert_eq. split; [intros _; left; left; reflexivity|].
      intros _. right. eauto.
    + rewrite lookup_insert_ne by congruence. tauto.
Qed.

(** Reading the snapshot of a well-formed estimator: one read per name,
    in order, and the dict of the values read. *)
Lemma runs_SAGE_values_from_reads self :
  forall names acc tr r,
    (forall f, f ∈ names -> SAGE_trackers self !! f = Some (SAGETracker f)) ->
    runs any_answer (SAGE_values_from self names acc) tr r ->
    exists vals,
      length vals = length names /\
      tr = zip_with (fun f v => Ev (TrackerValue (SAGETracker f)) v) names vals /\
      r = OK (foldl put acc (zip names vals)).
Proof.
  induction names as [|n ns IH]; intros acc tr r Hk; simpl.
  - intros [-> ->]. exists []. auto.
  - rewrite (Hk n) by apply list_elem_of_here. simpl.
    intros (v & tr' & _ & -> & H).
    apply IH in H as (vals & Hlen & -> & ->);
      [|intros f Hf; apply Hk, list_elem_of_further, Hf].
    exists (v :: vals). simpl. rewrite Hlen. auto.
Qed.


End SageMoreFacts.

(** X8. A step of the permutation walk that is asked for no samples
    ([sub_sample_size <= 0]) or is given none raises ZeroDivisionError
    without calling the model. *)
Theorem step_without_samples_divides_by_zero (self : Sage.IncrementalSAGE)
    (x_marginals : list Sage.dict) (x_S : Sage.dict)
    (tr : list (event Sage.sageE)) (r : result Q) :
  Sage.sub_sample_size self <= 0 \/ x_marginals = [] ->
  runs Sage.any_answer (Sage.averaged_prediction self x_marginals x_S) tr r ->
  r = Exn ZeroDivisionError /\ tr = [].
Proof.
  intros Hno. unfold Sage.averaged_prediction, Sage.bind_result.
  remember (Z.min (Sage.sub_sample_size self) (Z.of_nat (length x_marginals))) as bound
    eqn:Hb.
  assert (Hle : bound <= 0) by (destruct Hno as [H| ->]; simpl in *; lia).
  intros H. apply runs_bind in H as (tr1 & r1 & tr2 & H1 & H2 & ->).
  assert (r1 = OK (0, 0%Q) /\ tr1 = []) as [-> ->].
  { destruct (Z.to_nat bound) as [|n]; simpl in H1;
      replace (0 <? bound) with false in H1 by lia;
      destruct H1 as [-> ->]; auto. }
  simpl in H2. destruct H2 as [-> ->]. auto.
Qed.

Lemma step_without_samples_divides_by_zero_witness :
  (Sage.sub_sample_size SageExample.three_sample_estimator <= 0
   \/ @nil Sage.dict = []) /\
  runs Sage.any_answer
    (Sage.averaged_prediction SageExample.three_sample_estimator [] SageExample.x_11)
    [] (Exn ZeroDivisionError) /\
  (Exn ZeroDivisionError = Exn (A := Q) ZeroDivisionError
   /\ @nil (event Sage.sageE) = []).
Proof.
  assert (H1 : Sage.sub_sample_size SageExample.three_sample_estimator <= 0
               \/ @nil Sage.dict = []) by (right; reflexivity).
  assert (H2 : runs Sage.any_answer
                 (Sage.averaged_prediction SageExample.three_sample_estimator []
                    SageExample.x_11) [] (Exn ZeroDivisionError))
    by (simpl; split; reflexivity).
  split; [exact H1|]. split; [exact H2|].
  exact (step_without_samples_divides_by_zero _ _ _ _ _ H1 H2).
Defined.

(** X9. The snapshot of an estimator in which every configured feature
    has its tracker (as the constructor leaves it): reading it raises
    nothing, reads the tracker of each feature name once, in the order of
    [feature_names], and returns a dict whose keys are exactly the feature
    names. *)
Theorem snapshot_has_the_feature_names (self : Sage.IncrementalSAGE)
    (tr : list (event Sage.sageE)) (r : result (gmap string Q)) :
  SageMore.well_formed self ->
  runs Sage.any_answer (Sage.SAGE_values self) tr r ->
  exists (vals : list Q) (snapshot : gmap string Q),
    r = OK snapshot /\
    length vals = length (Sage.feature_names self) /\
    tr = zip_with (fun f v => Ev (Sage.TrackerValue (Sage.SAGETracker f)) v)
           (Sage.feature_names self) vals /\
    snapshot = foldl SageEnv.put ∅ (zip (Sage.feature_names self) vals) /\
    forall f, is_Some (snapshot !! f) <-> f ∈ Sage.feature_names self.
Proof.
  intros Hwf H. unfold Sage.SAGE_values in H.
  apply runs_SAGE_values_from_reads in H as (vals & Hlen & -> & ->); [|exact Hwf].
  exists vals, (foldl SageEnv.put ∅ (zip (Sage.feature_names self) vals)).
  repeat split; auto.
  - intros H. apply foldl_put_lookup in H as [H|H].
    + rewrite fst_zip in H by lia. exact H.
    + rewrite lookup_empty in H. destruct H; discriminate.
  - intros H. apply foldl_put_lookup. left. rewrite fst_zip by lia. exact H.
Qed.


Lemma snapshot_has_the_feature_names_witness :
  exists tr r,
    SageMore.well_formed SageExample.default_estimator /\
    runs Sage.any_answer (Sage.SAGE_values SageExample.default_estimator) tr r /\
    exists (vals : list Q) (snapshot : gmap string Q),
      r = OK snapshot /\
      forall f, is_Some (snapshot !! f) <-> f ∈ ["a"; "b"]%string.
Proof.
  pose proof (init_well_formed ["a"; "b"]%string "mse" (Some 7) 1 (Some [0%Q; 0%Q])
                SageExample.default_estimator eq_refl) as Hwf.
  pose proof (interp_runs Sage.any_answer SageExample.handler
                (Sage.SAGE_values SageExample.default_estimator)
                (fun _ _ _ => I) (SageExample.initial_world 0)) as Hrun.
  eexists _, _. split; [exact Hwf|]. split; [exact Hrun|].
  destruct (snapshot_has_the_feature_names _ _ _ Hwf Hrun)
    as (vals & snapshot & Hr & _ & _ & _ & Hkeys).
  exists vals, snapshot. split; [exact Hr|exact Hkeys].
Defined.


Section StepFacts.
Import Sage SageEnv SageMore.

Lemma runs_weaken {E A} (ok1 ok2 : forall X, E X -> X -> Prop) (t : prog E A) :
  (forall X (e : E X) x, ok1 X e x -> ok2 X e x) ->
  forall tr a, runs ok1 t tr a -> runs ok2 t tr a.
Proof.
  intros Hok. induction t as [a'|X e k IH]; intros tr a; simpl.
  - auto.
  - intros (x & tr' & H1 & -> & H2). exists x, tr'. eauto.
Qed.

(** A loop that ends normally met no model exception, and the loop
    never turns to the sampler. *)
Lemma while_loop_ok (bound : Z) (x_marginals : list dict) (x_S : dict) :
  forall (fuel : nat) (k : Z) (y : Q) tr r,
    runs any_answer (while_loop fuel bound x_marginals x_S k y) tr r ->
    flat_map sampler_calls tr = [] /\
    (is_ok r = true -> Forall (fun ev => model_raised ev = false) tr).
Proof.
  induction fuel as [|fuel IH]; intros k y tr r Hrun;
    simpl in Hrun; destruct (k <? bound).
  - destruct Hrun as [-> _]. auto.
  - destruct Hrun as [-> _]. auto.
  - destruct (x_marginals !! Z.to_nat k) as [x_k|].
    + destruct Hrun as (p & tr' & _ & -> & Hrun). destruct p as [v|e]; simpl in Hrun.
      * apply IH in Hrun as [Hs Hok]. simpl. split; [exact Hs|].
        intros Hr. constructor; [reflexivity|auto].
      * destruct Hrun as [-> ->]. simpl. split; [reflexivity|discriminate].
    + destruct Hrun as [-> _]. auto.
  - destruct Hrun as [-> _]. auto.
Qed.

(** A step that ends normally averaged over the first
    [min(sub_sample_size, len(x_marginals))] samples. *)
Lemma averaged_prediction_ok self x_marginals x_S tr y :
  runs any_answer (averaged_prediction self x_marginals x_S) tr (OK y) ->
  let bound := Z.min (sub_sample_size self) (Z.of_nat (length x_marginals)) in
  1 <= bound /\
  flat_map model_inputs tr
    = map (fun x_k => x_S ∪ x_k) (take (Z.to_nat bound) x_marginals) /\
  length (flat_map model_outputs tr) = Z.to_nat bound /\
  y = (fold_left Qplus (flat_map model_outputs tr) 0 / inject_Z bound)%Q.
Proof.
  unfold averaged_prediction, bind_result. cbv zeta.
  remember (Z.min (sub_sample_size self) (Z.of_nat (length x_marginals))) as bound
    eqn:Hb.
  intros H. apply runs_bind in H as (tr1 & r1 & tr2 & H1 & H2 & ->).
  destruct r1 as [ky|e]; [|destruct H2 as [_ E]; discriminate E].
  pose proof (while_loop_ok _ _ _ _ _ _ _ _ H1) as [_ Hok].
  apply runs_while_loop in H1 as (E & Hin & Hlen); [|auto|lia|lia|lia].
  inversion E; subst ky; clear E. simpl in H2.
  destruct (Z.max 0 bound =? 0) eqn:Hz; [destruct H2 as [_ E]; discriminate E|].
  destruct H2 as [-> E]. inversion E; subst y; clear E.
  rewrite !app_nil_r. rewrite Z.sub_0_r in Hin, Hlen. simpl in Hin.
  rewrite Z.max_r by lia. repeat split; auto. lia.
Qed.

Lemma averaged_prediction_no_sampler self x_marginals x_S tr r :
  runs any_answer (averaged_prediction self x_marginals x_S) tr r ->
  flat_map sampler_calls tr = [].
Proof.
  unfold averaged_prediction, bind_result. intros H.
  apply runs_bind in H as (tr1 & r1 & tr2 & H1 & H2 & ->).
  apply while_loop_ok in H1 as [H1 _]. rewrite flat_map_app, H1. simpl.
  destruct r1 as [ky|e]; [destruct (ky.1 =? 0)|]; destruct H2 as [-> _]; reflexivity.
Qed.

End StepFacts.

(** X11. A step of the permutation walk that returns, given [m] samples:
    [min(sub_sample_size, m)] is at least 1, the model has been called on
    the first [min(sub_sample_size, m)] samples and no others, each merged
    with the revealed values (which take precedence), and the step's
    prediction is the sum of these model predictions divided by their
    number. *)
Theorem step_averages_over_the_first_samples (self : Sage.IncrementalSAGE)
    (x_marginals : list Sage.dict) (x_S : Sage.dict)
    (tr : list (event Sage.sageE)) (y : Q) :
  runs Sage.any_answer (Sage.averaged_prediction self x_marginals x_S) tr (OK y) ->
  let used := Z.min (Sage.sub_sample_size self) (Z.of_nat (length x_marginals)) in
  1 <= used /\
  flat_map SageEnv.model_inputs tr
    = map (fun x_k => x_S ∪ x_k) (take (Z.to_nat used) x_marginals) /\
  length (flat_map SageEnv.model_outputs tr) = Z.to_nat used /\
  y = (fold_left Qplus (flat_map SageEnv.model_outputs tr) 0 / inject_Z used)%Q.
Proof. intros H. exact (averaged_prediction_ok self x_marginals x_S tr y H). Qed.

Lemma step_averages_over_the_first_samples_witness :
  exists tr y,
    runs Sage.any_answer
      (Sage.averaged_prediction SageExample.three_sample_estimator
         [SageExample.x_00; SageExample.x_22] (<["a"%string := 1%Q]> ∅)) tr (OK y) /\
    1 <= Z.min 3 (Z.of_nat 2) /\
    length (flat_map SageEnv.model_outputs tr) = Z.to_nat (Z.min 3 (Z.of_nat 2)).
Proof.
  pose (t := Sage.averaged_prediction SageExample.three_sample_estimator
               [SageExample.x_00; SageExample.x_22] (<["a"%string := 1%Q]> ∅)).
  pose proof (interp_runs Sage.any_answer SageExample.handler t
                (fun _ _ _ => I) (SageExample.initial_world 0)) as Hrun.
  assert (E : (interp SageExample.handler t (SageExample.initial_world 0)).1.1
              = OK (2 # 2)%Q) by (vm_compute; reflexivity).
  rewrite E in Hrun.
  eexists _, _. split; [exact Hrun|].
  destruct (step_averages_over_the_first_samples _ _ _ _ _ Hrun) as (H1 & _ & H2 & _).
  split; [exact H1|exact H2].
Defined.

(** ** The walk along the permutation *)

Section WalkFacts.
Import Sage SageEnv SageMore.

Lemma revealed_nil (x_i : dict) : revealed x_i [] = ∅.
Proof.
  apply map_eq. intros k. unfold revealed. rewrite lookup_empty.
  apply map_lookup_filter_None. right. intros v _ Hin. simpl in Hin.
  apply elem_of_nil in Hin. exact Hin.
Qed.

Lemma revealed_snoc (x_i : dict) (done : list string) (f : string) (v : Q) :
  x_i !! f = Some v ->
  <[f := v]> (revealed x_i done) = revealed x_i (done ++ [f]).
Proof.
  intros Hf. apply map_eq. intros k. unfold revealed.
  destruct (decide (k = f)) as [->|Hne].
  - rewrite lookup_insert_eq. symmetry. apply map_lookup_filter_Some.
    split; [exact Hf|]. simpl. apply elem_of_app. right. constructor.
  - rewrite lookup_insert_ne by congruence.
    destruct (x_i !! k) as [w|] eqn:Hk.
    + destruct (decide (k ∈ done)) as [Hin|Hout].
      * transitivity (Some w); [|symmetry]; apply map_lookup_filter_Some;
          (split; [exact Hk|]); simpl; [exact Hin|].
        apply elem_of_app. left. exact Hin.
      * transitivity (@None Q); [|symmetry]; apply map_lookup_filter_None; right;
          intros w' _ Hin; simpl in Hin; [tauto|].
        apply elem_of_app in Hin as [Hin|Hin]; [tauto|].
        apply list_elem_of_singleton in Hin. congruence.
    + transitivity (@None Q); [|symmetry]; apply map_lookup_filter_None; left; exact Hk.
Qed.

Lemma draw_marginals_calls self k tr xs :
  runs any_answer (draw_marginals self k) tr xs ->
  flat_map model_inputs tr = [] /\
  match default_values self with
  | None => flat_map sampler_calls tr = [inr k]
  | Some d => flat_map sampler_calls tr = [] /\ xs = replicate (Z.to_nat k) d
  end.
Proof.
  unfold draw_marginals. destruct (default_values self); simpl.
  - intros [-> ->]. auto.
  - intros (x & tr' & _ & -> & -> & _). auto.
Qed.

(** The walk, whatever its outcome, calls the sampler once per step
    begun when there are no default values, and never when there are. *)
Lemma sweep_default_no_sampler self x_i y_i d :
  default_values self = Some d ->
  forall chain x_S L tr r,
    runs any_answer (sweep self x_i y_i chain x_S L) tr r ->
    flat_map sampler_calls tr = [].
Proof.
  intros Hd. induction chain as [|feature rest IH]; intros x_S L tr r; simpl.
  - intros [-> _]. reflexivity.
  - destruct (x_i !! feature) as [v|]; [|intros [-> _]; reflexivity].
    intros H. apply runs_bind in H as (tr1 & xs & tr2 & H1 & H2 & ->).
    apply draw_marginals_calls in H1 as [_ H1]. rewrite Hd in H1. destruct H1 as [H1 _].
    unfold bind_result in H2.
    apply runs_bind in H2 as (tr3 & ry & tr4 & H3 & H4 & ->).
    apply averaged_prediction_no_sampler in H3.
    rewrite !flat_map_app, H1, H3. simpl.
    destruct ry as [y|e]; [|destruct H4 as [-> _]; reflexivity].
    destruct (SAGE_trackers self !! feature) as [t|];
      [|destruct H4 as [-> _]; reflexivity].
    simpl in H4. destruct H4 as ([] & tr5 & _ & -> & H5). simpl. eauto.
Qed.

(** A walk that reaches the end. *)
Lemma sweep_ok self x_i y_i :
  forall chain done L tr Ln,
    runs any_answer (sweep self x_i y_i chain (revealed x_i done) L) tr (OK Ln) ->
    Forall (fun f => is_Some (x_i !! f)) chain /\
    (default_values self = None ->
     flat_map sampler_calls tr = replicate (length chain) (inr (sub_sample_size self))) /\
    (forall d, default_values self = Some d ->
       flat_map model_inputs tr
       = flat_map (fun j => replicate (Z.to_nat (sub_sample_size self))
                              (revealed x_i (done ++ take j chain) ∪ d))
                  (seq 1 (length chain))).
Proof.
  induction chain as [|feature rest IH]; intros done L tr Ln; simpl.
  - intros [-> _]. auto.
  - destruct (x_i !! feature) as [v|] eqn:Hf; [|intros [_ E]; discriminate E].
    rewrite (revealed_snoc _ _ _ _ Hf).
    intros H. apply runs_bind in H as (tr1 & xs & tr2 & H1 & H2 & ->).
    apply draw_marginals_calls in H1 as [Hm1 H1].
    unfold bind_result in H2.
    apply runs_bind in H2 as (tr3 & ry & tr4 & H3 & H4 & ->).
    destruct ry as [y|e]; [|destruct H4 as [_ E]; discriminate E].
    pose proof (averaged_prediction_no_sampler _ _ _ _ _ H3) as Hs3.
    apply averaged_prediction_ok in H3 as (Hb & Hm3 & _).
    destruct (SAGE_trackers self !! feature) as [t|];
      [|destruct H4 as [_ E]; discriminate E].
    simpl in H4. destruct H4 as ([] & tr5 & _ & -> & H5).
    apply IH in H5 as (Hall & Hs5 & Hm5).
    split; [constructor; [eauto|exact Hall]|]. split.
    + intros Hnone. rewrite Hnone in H1.
      rewrite !flat_map_app, H1, Hs3. simpl. rewrite (Hs5 Hnone). reflexivity.
    + intros d Hd. rewrite Hd in H1. destruct H1 as [_ ->].
      rewrite !flat_map_app, Hm1, Hm3. simpl. rewrite (Hm5 d Hd).
      rewrite length_replicate in Hb |- *.
      replace (Z.min (sub_sample_size self) (Z.of_nat (Z.to_nat (sub_sample_size self))))
        with (sub_sample_size self) by lia.
      rewrite firstn_all2 by (rewrite length_replicate; lia).
      rewrite fmap_replicate. f_equal.
      rewrite <- (seq_shift (length rest) 1).
      rewrite (flat_map_concat_map _ (map S _)), map_map, <- flat_map_concat_map.
      apply flat_map_ext. intros j. simpl. rewrite <- app_assoc. reflexivity.
Qed.

End WalkFacts.

(** ** The calls of one [explain_one] *)

Section CallFacts.
Import Sage SageEnv SageMore.
Variable ok : forall X, sageE X -> X -> Prop.

Lemma to_any_answer {A} (t : prog sageE A) tr a :
  runs ok t tr a -> runs any_answer t tr a.
Proof. apply runs_weaken. intros; exact I. Qed.

(** The calls of lines 123-130, then the walk. *)
Lemma runs_contributions_ok self x_i y_i tr Ln :
  runs ok (contributions self x_i y_i) tr (OK Ln) ->
  exists chain pre x_0 mp smoothed walk,
    ok _ (NpRandomPermutation (feature_names self)) chain /\
    tr = Ev (NpRandomPermutation (feature_names self)) chain :: pre
         ++ [Ev (ModelFn x_0) (OK mp);
             Ev (TrackerUpdate (marginal_prediction self) mp) tt;
             Ev (TrackerCall (marginal_prediction self)) smoothed] ++ walk /\
    match default_values self with
    | None => exists xm, pre = [Ev (SamplerSample 1) xm] /\ xm !! 0%nat = Some x_0
    | Some d => pre = [] /\ x_0 = d
    end /\
    runs ok (sweep self x_i y_i chain ∅ (loss_function self y_i smoothed)) walk (OK Ln).
Proof.
  unfold contributions. simpl.
  intros (chain & tr1 & Hchain & -> & H).
  apply runs_bind in H as (tr2 & x_marginal & tr3 & H2 & H3 & ->).
  destruct (x_marginal !! 0%nat) as [x_0|] eqn:Hx0;
    [|destruct H3 as [_ E]; discriminate E].
  simpl in H3. destruct H3 as (p & tr4 & _ & -> & H4).
  destruct p as [mp|e]; [|destruct H4 as [_ E]; discriminate E].
  simpl in H4.
  destruct H4 as ([] & tr5 & _ & -> & smoothed & walk & _ & -> & H5).
  exists chain, tr2, x_0, mp, smoothed, walk.
  split; [exact Hchain|]. split; [reflexivity|]. split; [|exact H5].
  destruct (default_values self) as [d|].
  - destruct H2 as [-> ->]. simpl in Hx0. inversion Hx0. auto.
  - simpl in H2. destruct H2 as (xm & tr' & _ & -> & -> & ->). eauto.
Qed.

Lemma runs_explain_one_ok self x_i y_i tr self' snapshot :
  1 <= seen_samples self ->
  runs ok (explain_one self x_i y_i) tr (self', OK snapshot) ->
  exists tr_c Ln tr_f,
    tr = tr_c ++ tr_f /\
    runs ok (contributions self x_i y_i) tr_c (OK Ln) /\
    runs ok (finish self x_i y_i) tr_f (self', OK snapshot).
Proof.
  intros Hseen. unfold explain_one.
  replace (seen_samples self <? 1) with false by lia.
  intros H. apply runs_bind in H as (tr1 & r1 & tr2 & H1 & H2 & ->).
  destruct r1 as [Ln|e]; [|destruct H2 as [_ E]; discriminate E].
  exists tr1, Ln, tr2. auto.
Qed.

End CallFacts.

Section ProjectionFacts.
Import Sage SageEnv SageMore.

Lemma SAGE_values_from_quiet self :
  forall names acc tr r,
    runs any_answer (SAGE_values_from self names acc) tr r ->
    flat_map model_inputs tr = [] /\ fed tr = [] /\ flat_map sampler_calls tr = [].
Proof.
  induction names as [|n ns IH]; intros acc tr r; simpl.
  - intros [-> _]. auto.
  - destruct (SAGE_trackers self !! n) as [t|]; [|intros [-> _]; auto].
    simpl. intros (v & tr' & _ & -> & H). apply IH in H. exact H.
Qed.

Lemma finish_calls self x_i y_i tr self' r :
  runs any_answer (finish self x_i y_i) tr (self', r) ->
  flat_map model_inputs tr = [] /\ fed tr = [] /\
  flat_map sampler_calls tr
    = match default_values self with None => [inl (x_i, y_i)] | Some _ => [] end.
Proof.
  unfold finish. simpl. intros H.
  apply runs_bind in H as (tr1 & u & tr2 & H1 & H2 & ->).
  apply runs_bind in H2 as (tr3 & values & tr4 & H3 & [-> _] & ->).
  apply SAGE_values_from_quiet in H3 as (Hm & Hf & Hs).
  rewrite !fed_app, !flat_map_app, Hm, Hf, Hs. simpl. rewrite !app_nil_r.
  destruct (default_values self) as [d|].
  - destruct H1 as [-> _]. auto.
  - destruct H1 as ([] & tr' & _ & -> & -> & _). auto.
Qed.

Lemma contributions_default_no_sampler self x_i y_i d tr r :
  default_values self = Some d ->
  runs any_answer (contributions self x_i y_i) tr r ->
  flat_map sampler_calls tr = [].
Proof.
  intros Hd. unfold contributions. rewrite Hd. simpl.
  intros (chain & tr1 & _ & -> & p & tr2 & _ & -> & H). simpl.
  destruct p as [mp|e]; [|destruct H as [-> _]; reflexivity].
  simpl in H. destruct H as ([] & tr3 & _ & -> & smoothed & walk & _ & -> & H).
  simpl. eapply sweep_default_no_sampler; eauto.
Qed.

End ProjectionFacts.

(** X12. With fixed default values [explain_one] never turns to the
    sampler, in the warm-up or after it, whether the call returns or
    raises. *)
Theorem fixed_defaults_never_call_the_sampler (self self' : Sage.IncrementalSAGE)
    (d x_i : Sage.dict) (y_i : Q) (tr : list (event Sage.sageE))
    (r : result (gmap string Q)) :
  Sage.default_values self = Some d ->
  runs Sage.any_answer (Sage.explain_one self x_i y_i) tr (self', r) ->
  flat_map SageEnv.sampler_calls tr = [].
Proof.
  intros Hd. unfold Sage.explain_one.
  assert (Hfin : forall tr' s r', runs Sage.any_answer (Sage.finish self x_i y_i) tr' (s, r') ->
                   flat_map SageEnv.sampler_calls tr' = []).
  { intros tr' s r' H. apply finish_calls in H as (_ & _ & H). rewrite Hd in H. exact H. }
  destruct (Sage.seen_samples self <? 1); [apply Hfin|].
  intros H. apply runs_bind in H as (tr1 & r1 & tr2 & H1 & H2 & ->).
  apply (contributions_default_no_sampler _ _ _ d) in H1; [|exact Hd].
  rewrite flat_map_app, H1. simpl.
  destruct r1 as [Ln|e]; [eapply Hfin; eauto|destruct H2 as [-> _]; reflexivity].
Qed.

(** X13. Without default values, a call of [explain_one] past the warm-up
    that returns has asked the sampler for one sample, then for
    [sub_sample_size] samples once per feature of the permutation, and
    only then has given it the example: the example explained is not among
    the background samples of its own explanation. *)
Theorem sampling_mode_samples_before_it_stores (self self' : Sage.IncrementalSAGE)
    (x_i : Sage.dict) (y_i : Q) (tr : list (event Sage.sageE))
    (snapshot : gmap string Q) :
  Sage.default_values self = None ->
  1 <= Sage.seen_samples self ->
  runs SageMore.valid_answer (Sage.explain_one self x_i y_i) tr (self', OK snapshot) ->
  flat_map SageEnv.sampler_calls tr
  = inr 1 :: replicate (length (Sage.feature_names self)) (inr (Sage.sub_sample_size self))
    ++ [inl (x_i, y_i)].
Proof.
  intros Hd Hseen H.
  apply runs_explain_one_ok in H as (tr_c & Ln & tr_f & -> & Hc & Hf); [|exact Hseen].
  apply to_any_answer, finish_calls in Hf as (_ & _ & Hf). rewrite Hd in Hf.
  apply runs_contributions_ok in Hc
    as (chain & pre & x_0 & mp & smoothed & walk & Hperm & -> & Hpre & Hw).
  rewrite Hd in Hpre. destruct Hpre as (xm & -> & _).
  apply to_any_answer in Hw. rewrite <- revealed_nil with (x_i := x_i) in Hw.
  apply sweep_ok in Hw as (_ & Hs & _).
  simpl in Hperm. simpl. rewrite !flat_map_app, Hf. simpl. rewrite (Hs Hd).
  rewrite (Permutation_length Hperm). reflexivity.
Qed.

(** X14. A call of [explain_one] past the warm-up returns only if the
    example has a value for every configured feature. *)
Theorem explain_one_needs_every_feature (self self' : Sage.IncrementalSAGE)
    (x_i : Sage.dict) (y_i : Q) (tr : list (event Sage.sageE))
    (snapshot : gmap string Q) :
  1 <= Sage.seen_samples self ->
  runs SageMore.valid_answer (Sage.explain_one self x_i y_i) tr (self', OK snapshot) ->
  forall f, f ∈ Sage.feature_names self -> is_Some (x_i !! f).
Proof.
  intros Hseen H f Hf.
  apply runs_explain_one_ok in H as (tr_c & Ln & tr_f & -> & Hc & _); [|exact Hseen].
  apply runs_contributions_ok in Hc
    as (chain & pre & x_0 & mp & smoothed & walk & Hperm & _ & _ & Hw).
  apply to_any_answer in Hw. rewrite <- revealed_nil with (x_i := x_i) in Hw.
  apply sweep_ok in Hw as (Hall & _).
  simpl in Hperm. rewrite <- Hperm in Hf.
  rewrite Forall_forall in Hall. exact (Hall f Hf).
Qed.

(** X15. With fixed default values [d], a call of [explain_one] past the
    warm-up that returns has called the model first on [d] and then, for
    the [j]-th feature of the drawn permutation, [sub_sample_size] times on
    the vector that has the example's values for the first [j] features of
    the permutation and the default values for the others; so the model is
    called [1 + number of features * sub_sample_size] times, the last
    calls on the example's own values. *)
Theorem fixed_defaults_model_inputs (self self' : Sage.IncrementalSAGE)
    (d x_i : Sage.dict) (y_i : Q) (tr : list (event Sage.sageE))
    (snapshot : gmap string Q) :
  Sage.default_values self = Some d ->
  1 <= Sage.seen_samples self ->
  runs SageMore.valid_answer (Sage.explain_one self x_i y_i) tr (self', OK snapshot) ->
  exists chain rest,
    chain ≡ₚ Sage.feature_names self /\
    tr = Ev (Sage.NpRandomPermutation (Sage.feature_names self)) chain :: rest /\
    flat_map SageEnv.model_inputs tr
    = d :: SageMore.walk_inputs x_i d (Z.to_nat (Sage.sub_sample_size self)) chain /\
    length (flat_map SageEnv.model_inputs tr)
    = (1 + length (Sage.feature_names self) * Z.to_nat (Sage.sub_sample_size self))%nat.
Proof.
  intros Hd Hseen H.
  apply runs_explain_one_ok in H as (tr_c & Ln & tr_f & -> & Hc & Hf); [|exact Hseen].
  apply to_any_answer, finish_calls in Hf as (Hf & _ & _).
  apply runs_contributions_ok in Hc
    as (chain & pre & x_0 & mp & smoothed & walk & Hperm & -> & Hpre & Hw).
  rewrite Hd in Hpre. destruct Hpre as (-> & ->).
  apply to_any_answer in Hw. rewrite <- revealed_nil with (x_i := x_i) in Hw.
  apply sweep_ok in Hw as (_ & _ & Hm). specialize (Hm d Hd). simpl in Hm.
  simpl in Hperm.
  assert (Hin : flat_map SageEnv.model_inputs
                  ((Ev (Sage.NpRandomPermutation (Sage.feature_names self)) chain
                    :: [] ++ [Ev (Sage.ModelFn d) (OK mp);
                              Ev (Sage.TrackerUpdate (Sage.marginal_prediction self) mp) tt;
                              Ev (Sage.TrackerCall (Sage.marginal_prediction self)) smoothed]
                    ++ walk) ++ tr_f)
                = d :: SageMore.walk_inputs x_i d (Z.to_nat (Sage.sub_sample_size self)) chain).
  { simpl. rewrite flat_map_app, Hf, app_nil_r, Hm. reflexivity. }
  exists chain, (([] ++ [Ev (Sage.ModelFn d) (OK mp);
                        Ev (Sage.TrackerUpdate (Sage.marginal_prediction self) mp) tt;
                        Ev (Sage.TrackerCall (Sage.marginal_prediction self)) smoothed]
                  ++ walk) ++ tr_f).
  split; [exact Hperm|]. split; [reflexivity|]. split; [exact Hin|].
  assert (Hlen : forall (js : list nat),
            length (flat_map (fun j => replicate (Z.to_nat (Sage.sub_sample_size self))
                                          (SageMore.revealed x_i (take j chain) ∪ d)) js)
            = (length js * Z.to_nat (Sage.sub_sample_size self))%nat).
  { induction js as [|j js IH]; simpl; [reflexivity|].
    rewrite length_app, length_replicate, IH. reflexivity. }
  rewrite Hin. simpl. f_equal. unfold SageMore.walk_inputs.
  rewrite Hlen, length_seq, (Permutation_length Hperm). reflexivity.
Qed.

Section TrackerFacts.
Import Sage SageEnv SageMore.


Lemma example_handler_valid (X : Type) (e : sageE X) (w : @world nat (list dict)) :
  valid_answer X e (SageExample.handler X e w).1.
Proof.
  destruct e; simpl; try exact I.
  destruct (Nat.even (np_random w)); [reflexivity|].
  apply reverse_Permutation.
Qed.

End TrackerFacts.


(** The example estimators past their warm-up, and a sampler that has
    stored one vector. *)
Lemma default_run_example :
  exists tr self' snapshot,
    runs SageMore.valid_answer
      (Sage.explain_one (Sage.set_seen_samples SageExample.default_estimator 1)
         SageExample.x_11 1%Q) tr (self', OK snapshot).
Proof.
  pose proof (interp_runs SageMore.valid_answer SageExample.handler
                (Sage.explain_one (Sage.set_seen_samples SageExample.default_estimator 1)
                   SageExample.x_11 1%Q)
                example_handler_valid (SageExample.initial_world 0)) as Hrun.
  assert (E : is_ok (interp SageExample.handler
                (Sage.explain_one (Sage.set_seen_samples SageExample.default_estimator 1)
                   SageExample.x_11 1%Q) (SageExample.initial_world 0)).1.1.2 = true)
    by (vm_compute; reflexivity).
  destruct (interp SageExample.handler _ (SageExample.initial_world 0))
    as [[[self' r] w] tr].
  cbn [fst snd] in Hrun, E. destruct r as [snapshot|e]; [|discriminate E].
  exists tr, self', snapshot. exact Hrun.
Defined.

Lemma sampling_run_example :
  exists tr self' snapshot,
    runs SageMore.valid_answer
      (Sage.explain_one (Sage.set_seen_samples SageExample.sampling_estimator 1)
         SageExample.x_11 1%Q) tr (self', OK snapshot).
Proof.
  pose proof (interp_runs SageMore.valid_answer SageExample.handler
                (Sage.explain_one (Sage.set_seen_samples SageExample.sampling_estimator 1)
                   SageExample.x_11 1%Q)
                example_handler_valid
                (SageEnv.World 0%nat [SageExample.x_00] SageEnv.fresh_trackers)) as Hrun.
  assert (E : is_ok (interp SageExample.handler
                (Sage.explain_one (Sage.set_seen_samples SageExample.sampling_estimator 1)
                   SageExample.x_11 1%Q)
                (SageEnv.World 0%nat [SageExample.x_00] SageEnv.fresh_trackers)).1.1.2 = true)
    by (vm_compute; reflexivity).
  destruct (interp SageExample.handler _ (SageEnv.World 0%nat [SageExample.x_00] _))
    as [[[self' r] w] tr].
  cbn [fst snd] in Hrun, E. destruct r as [snapshot|e]; [|discriminate E].
  exists tr, self', snapshot. exact Hrun.
Defined.

Lemma fixed_defaults_never_call_the_sampler_witness :
  exists tr self' snapshot,
    Sage.default_values (Sage.set_seen_samples SageExample.default_estimator 1)
      = Some SageExample.x_00 /\
    runs Sage.any_answer
      (Sage.explain_one (Sage.set_seen_samples SageExample.default_estimator 1)
         SageExample.x_11 1%Q) tr (self', OK snapshot) /\
    flat_map SageEnv.sampler_calls tr = [].
Proof.
  destruct default_run_example as (tr & self' & snapshot & Hrun).
  apply (to_any_answer SageMore.valid_answer) in Hrun.
  exists tr, self', snapshot. split; [reflexivity|]. split; [exact Hrun|].
  exact (fixed_defaults_never_call_the_sampler
           (Sage.set_seen_samples SageExample.default_estimator 1) self'
           SageExample.x_00 _ _ _ _ eq_refl Hrun).
Defined.

Lemma sampling_mode_samples_before_it_stores_witness :
  exists tr self' snapshot,
    Sage.default_values (Sage.set_seen_samples SageExample.sampling_estimator 1) = None /\
    1 <= Sage.seen_samples (Sage.set_seen_samples SageExample.sampling_estimator 1) /\
    runs SageMore.valid_answer
      (Sage.explain_one (Sage.set_seen_samples SageExample.sampling_estimator 1)
         SageExample.x_11 1%Q) tr (self', OK snapshot) /\
    flat_map SageEnv.sampler_calls tr
    = [inr 1; inr 1; inr 1; inl (SageExample.x_11, 1%Q)].
Proof.
  destruct sampling_run_example as (tr & self' & snapshot & Hrun).
  assert (H1 : 1 <= Sage.seen_samples (Sage.set_seen_samples SageExample.sampling_estimator 1))
    by (simpl; lia).
  exists tr, self', snapshot. split; [reflexivity|]. split; [exact H1|].
  split; [exact Hrun|].
  exact (sampling_mode_samples_before_it_stores
           (Sage.set_seen_samples SageExample.sampling_estimator 1) self'
           _ _ _ _ eq_refl H1 Hrun).
Defined.

Lemma explain_one_needs_every_feature_witness :
  exists tr self' snapshot,
    1 <= Sage.seen_samples (Sage.set_seen_samples SageExample.default_estimator 1) /\
    runs SageMore.valid_answer
      (Sage.explain_one (Sage.set_seen_samples SageExample.default_estimator 1)
         SageExample.x_11 1%Q) tr (self', OK snapshot) /\
    forall f, f ∈ ["a"; "b"]%string -> is_Some (SageExample.x_11 !! f).
Proof.
  destruct default_run_example as (tr & self' & snapshot & Hrun).
  assert (H1 : 1 <= Sage.seen_samples (Sage.set_seen_samples SageExample.default_estimator 1))
    by (simpl; lia).
  exists tr, self', snapshot. split; [exact H1|]. split; [exact Hrun|].
  exact (explain_one_needs_every_feature _ _ _ _ _ _ H1 Hrun).
Defined.

Lemma fixed_defaults_model_inputs_witness :
  exists tr self' snapshot,
    Sage.default_values (Sage.set_seen_samples SageExample.default_estimator 1)
      = Some SageExample.x_00 /\
    1 <= Sage.seen_samples (Sage.set_seen_samples SageExample.default_estimator 1) /\
    runs SageMore.valid_answer
      (Sage.explain_one (Sage.set_seen_samples SageExample.default_estimator 1)
         SageExample.x_11 1%Q) tr (self', OK snapshot) /\
    length (flat_map SageEnv.model_inputs tr) = (1 + 2 * 1)%nat.
Proof.
  destruct default_run_example as (tr & self' & snapshot & Hrun).
  assert (H1 : 1 <= Sage.seen_samples (Sage.set_seen_samples SageExample.default_estimator 1))
    by (simpl; lia).
  exists tr, self', snapshot. split; [reflexivity|]. split; [exact H1|].
  split; [exact Hrun|].
  destruct (fixed_defaults_model_inputs
              (Sage.set_seen_samples SageExample.default_estimator 1) self'
              SageExample.x_00 _ _ _ _ eq_refl H1 Hrun)
    as (chain & rest & _ & _ & _ & Hlen).
  exact Hlen.
Defined.


(** ** More on the marginal imputer *)

Section ImputerTriples.
Import MarginalImputer ImputerMore.
Variable h0 : heap.
Variable good : dict -> Prop.

Let ext := ext h0.

Lemma triple_ret {A} (pre : heap -> Prop) (a : A) (post : A -> heap -> Prop) :
  (forall h, pre h -> post a h) -> triple pre (ret a) good post.
Proof.
  intros Hp h tr h' r Hpre [-> E]. inversion E; subst.
  split; [constructor|]. intros a' Ea. inversion Ea; subst. auto.
Qed.

Lemma triple_raise {A} (pre : heap -> Prop) (e : exn) (post : A -> heap -> Prop) :
  triple pre (raise e) good post.
Proof.
  intros h tr h' r Hpre [-> E]. inversion E; subst.
  split; [constructor|]. intros a' Ea. discriminate Ea.
Qed.

Lemma triple_bind {A B} (pre : heap -> Prop) (m : M A) (f : A -> M B)
    (mid : A -> heap -> Prop) (post : B -> heap -> Prop) :
  triple pre m good mid ->
  (forall a, triple (mid a) (f a) good post) ->
  triple pre (bindM m f) good post.
Proof.
  intros Hm Hf h tr h' r Hpre Hrun. unfold bindM in Hrun.
  apply runs_bind in Hrun as (tr1 & [h1 r1] & tr2 & H1 & H2 & ->).
  destruct (Hm h tr1 h1 r1 Hpre H1) as [Hev1 Hmid]. simpl in H2.
  destruct r1 as [a|e].
  - destruct (Hf a h1 tr2 h' r (Hmid a eq_refl) H2) as [Hev2 Hpost].
    split; [apply Forall_app; auto|exact Hpost].
  - destruct H2 as [-> E]. inversion E; subst.
    split; [rewrite app_nil_r; exact Hev1|]. intros b Eb. discriminate Eb.
Qed.

Lemma triple_weaken {A} (pre pre' : heap -> Prop) (m : M A)
    (post post' : A -> heap -> Prop) :
  triple pre m good post ->
  (forall h, pre' h -> pre h) -> (forall a h, post a h -> post' a h) ->
  triple pre' m good post'.
Proof.
  intros Hm Hpre Hpost h tr h' r Hp Hrun.
  destruct (Hm h tr h' r (Hpre h Hp) Hrun) as [H1 H2]. split; eauto.
Qed.

Lemma triple_randrange (pre : heap -> Prop) n :
  triple pre (randrange n) good (fun _ h => pre h).
Proof.
  intros h tr h' r Hpre. unfold randrange. destruct (n <=? 0); simpl.
  - intros [-> E]. inversion E; subst. split; [constructor|]. intros a Ea. discriminate Ea.
  - intros (v & tr' & _ & -> & -> & E). inversion E; subst.
    split; [repeat constructor|]. auto.
Qed.

Lemma triple_index (pre : heap -> Prop) features rand_idx :
  triple pre (index features rand_idx) good (fun s h => pre h /\ s ∈ features).
Proof.
  unfold index. destruct (_ && _); [|apply triple_raise].
  destruct (features !! Z.to_nat rand_idx) as [s|] eqn:Hs; [|apply triple_raise].
  apply triple_ret. intros h Hpre. split; [exact Hpre|].
  apply list_elem_of_lookup. eauto.
Qed.

(** A copy of an object of the start heap: a new object, same content. *)
Lemma triple_copy s c :
  h0 !! s = Some c ->
  triple ext (copy s) good
    (fun s' h => (ext h /\ h !! s' = Some c) /\ h0 !! s' = None).
Proof.
  intros Hs h tr h' r Hext. unfold copy.
  rewrite (lookup_weaken _ _ _ _ Hs Hext).
  intros [-> E]. inversion E; subst. split; [constructor|].
  intros a Ea. inversion Ea; subst.
  assert (Hfresh : h !! fresh (dom h) = None) by (apply not_elem_of_dom, is_fresh).
  split; [split|].
  - unfold ext, ImputerMore.ext. etrans; [exact Hext|].
    apply insert_subseteq. exact Hfresh.
  - apply lookup_insert_eq.
  - eapply lookup_weaken_None; [exact Hfresh|exact Hext].
Qed.

Lemma triple_getitem (pre : heap -> Prop) s c key :
  (forall h, pre h -> h !! s = Some c) ->
  triple pre (getitem s key) good (fun v h => pre h /\ c !! key = Some v).
Proof.
  intros Hs h tr h' r Hpre. unfold getitem. rewrite (Hs h Hpre).
  destruct (c !! key) as [v|] eqn:Hk; intros [-> E]; inversion E; subst;
    (split; [constructor|]); intros a Ea; inversion Ea; subst. auto.
Qed.

Lemma triple_pure {A} (pre : heap -> Prop) (P : Prop) (m : M A)
    (post : A -> heap -> Prop) :
  (P -> triple pre m good post) -> triple (fun h => pre h /\ P) m good post.
Proof. intros Hm h tr h' r [Hpre HP]. exact (Hm HP h tr h' r Hpre). Qed.

Lemma triple_project (pre : heap -> Prop) s c :
  (forall h, pre h -> h !! s = Some c) ->
  forall feature_subset acc,
    triple pre (project s feature_subset acc) good
      (fun res h => pre h /\
         (forall k, res !! k = if bool_decide (k ∈ feature_subset) then c !! k
                               else acc !! k) /\
         forall k, k ∈ feature_subset -> is_Some (c !! k)).
Proof.
  intros Hs. induction feature_subset as [|f fs IH]; intros acc; simpl.
  - apply triple_ret; intros h Hpre.
    split; [exact Hpre|]. split; [intros k; reflexivity|].
    intros k Hk. apply elem_of_nil in Hk. destruct Hk.
  - eapply triple_bind; [apply triple_getitem; exact Hs|].
    intros v. simpl. apply triple_pure. intros Hf.
    eapply triple_weaken; [apply (IH (<[f := v]> acc))|auto|].
    intros res h (Hpre & Hres & Hall). split; [exact Hpre|]. split.
    + intros k. rewrite Hres. destruct (decide (k = f)) as [->|Hne].
      * rewrite (bool_decide_eq_true_2 (f ∈ f :: fs)) by apply list_elem_of_here.
        rewrite lookup_insert_eq, Hf. destruct (bool_decide (f ∈ fs)); reflexivity.
      * rewrite lookup_insert_ne by congruence.
        destruct (bool_decide (k ∈ fs)) eqn:Hin.
        -- apply bool_decide_eq_true in Hin.
           rewrite bool_decide_eq_true_2 by (apply list_elem_of_further; exact Hin).
           reflexivity.
        -- apply bool_decide_eq_false in Hin.
           rewrite bool_decide_eq_false_2; [reflexivity|].
           rewrite elem_of_cons. tauto.
    + intros k Hk. apply elem_of_cons in Hk as [->|Hk]; eauto.
Qed.

Lemma triple_setitem_dict new c0 key v :
  h0 !! new = None ->
  triple (fun h => ext h /\ h !! new = Some c0) (setitem_dict new key v) good
    (fun _ h => ext h /\ h !! new = Some (<[key := v]> c0)).
Proof.
  intros Hnew h tr h' r [Hext Hc]. unfold setitem_dict. rewrite Hc.
  intros [-> E]. inversion E; subst. split; [constructor|].
  intros a _. split; [apply subseteq_insert_new; assumption|apply lookup_insert_eq].
Qed.

(** After the loop of assignments the new object has the sampled values
    for the features of the subset and its other values as before. *)
Lemma triple_overwrite new sampled_values :
  h0 !! new = None ->
  forall feature_subset c0,
    triple (fun h => ext h /\ h !! new = Some c0)
      (overwrite new feature_subset sampled_values) good
      (fun _ h => ext h /\ exists c1, h !! new = Some c1 /\
         imputed feature_subset c0 sampled_values c1).
Proof.
  intros Hnew. induction feature_subset as [|key rest IH]; intros c0; simpl.
  - apply triple_ret. intros h [Hext Hc]. split; [exact Hext|].
    exists c0. split; [exact Hc|]. intros k. reflexivity.
  - destruct (sampled_values !! key) as [v|] eqn:Hv; [|apply triple_raise].
    eapply triple_bind; [apply triple_setitem_dict; exact Hnew|].
    intros u. eapply triple_weaken; [apply (IH (<[key := v]> c0))|auto|].
    intros u' h (Hext & c1 & Hc1 & Himp). split; [exact Hext|].
    exists c1. split; [exact Hc1|]. intros k. rewrite Himp.
    destruct (decide (k = key)) as [->|Hne].
    + rewrite (bool_decide_eq_true_2 (key ∈ key :: rest)) by apply list_elem_of_here.
      rewrite lookup_insert_eq, Hv. destruct (bool_decide (key ∈ rest)); reflexivity.
    + rewrite lookup_insert_ne by congruence.
      destruct (bool_decide (k ∈ rest)) eqn:Hin.
      * apply bool_decide_eq_true in Hin.
        rewrite bool_decide_eq_true_2 by (apply list_elem_of_further; exact Hin).
        reflexivity.
      * apply bool_decide_eq_false in Hin.
        rewrite bool_decide_eq_false_2; [reflexivity|].
        rewrite elem_of_cons. tauto.
Qed.

Lemma triple_predict_one new :
  h0 !! new = None ->
  triple (fun h => ext h /\ exists c1, h !! new = Some c1 /\ good c1)
    (predict_one new) good (fun _ h => ext h).
Proof.
  intros Hnew h tr h' r (Hext & c1 & Hc1 & Hgood). unfold predict_one.
  rewrite Hc1. simpl. intros (answer & tr' & _ & -> & -> & E). inversion E; subst.
  split; [repeat constructor; exact Hgood|].
  intros a _. apply subseteq_insert_new; assumption.
Qed.

End ImputerTriples.

Section ImputeSpec.
Import MarginalImputer ImputerMore.
Variable h0 : heap.
Variable self : t.
Variable feature_subset : list string.
Variable x_i : loc.
Variable cx : dict.
Let features := _storage_x (storage_object self).
Hypothesis Hx : h0 !! x_i = Some cx.
Hypothesis Hstored : forall s, s ∈ features -> is_Some (h0 !! s).

Let stored_values := stored_values h0 features.

Lemma from_one_stored_from_storage fs sampled :
  from_one_stored h0 features fs sampled -> from_storage h0 features fs sampled.
Proof.
  intros (s & c & Hs & Hc & Hall) k Hk.
  destruct (Hall k Hk) as (v & Hv & Hsv). exists s, c, v. auto.
Qed.

Lemma triple_sample_marginals good :
  triple (ext h0) (_sample_marginals features feature_subset) good
    (fun sampled h => ext h0 h /\ from_one_stored h0 features feature_subset sampled).
Proof.
  unfold _sample_marginals.
  eapply triple_bind; [apply triple_randrange|]. intros rand_idx. simpl.
  eapply triple_bind; [apply triple_index|]. intros s. simpl.
  apply triple_pure. intros Hs. destruct (Hstored s Hs) as [c Hc].
  eapply triple_bind; [apply triple_copy; exact Hc|]. intros s'. simpl.
  apply triple_pure. intros Hnew.
  eapply triple_weaken;
    [apply (triple_project h0 good (fun h => ext h0 h /\ h !! s' = Some c) s' c);
     intros h [_ Hh]; exact Hh| |].
  - intros h Hpre. exact Hpre.
  - intros res h ([Hext _] & Hres & Hall). split; [exact Hext|].
    exists s, c. split; [exact Hs|]. split; [exact Hc|].
    intros k Hk. destruct (Hall k Hk) as [v Hv]. exists v. split; [exact Hv|].
    rewrite Hres, bool_decide_eq_true_2 by exact Hk. exact Hv.
Qed.

Lemma triple_sample_product_marginals good :
  forall fs acc,
    stored_values acc ->
    triple (ext h0) (_sample_product_marginals_from features fs acc) good
      (fun res h => ext h0 h /\
         (stored_values res /\
          forall k, k ∈ fs \/ is_Some (acc !! k) -> is_Some (res !! k))).
Proof.
  induction fs as [|f fs IH]; intros acc Hacc; simpl.
  - apply triple_ret. intros h Hext. split; [exact Hext|]. split; [exact Hacc|].
    intros k [Hk|Hk]; [apply elem_of_nil in Hk; destruct Hk|exact Hk].
  - eapply triple_bind; [apply triple_randrange|]. intros rand_idx. simpl.
    eapply triple_bind; [apply triple_index|]. intros s. simpl.
    apply triple_pure. intros Hs. destruct (Hstored s Hs) as [c Hc].
    eapply triple_bind; [apply triple_copy; exact Hc|]. intros s'. simpl.
    apply triple_pure. intros Hnew.
    eapply triple_bind;
      [apply (triple_getitem good (fun h => ext h0 h /\ h !! s' = Some c) s' c f);
       intros h [_ Hh]; exact Hh|].
    intros v. simpl. apply triple_pure. intros Hv.
    eapply triple_weaken; [apply (IH (<[f := v]> acc))| |].
    + intros k w Hk. destruct (decide (k = f)) as [->|Hne].
      * rewrite lookup_insert_eq in Hk. inversion Hk; subst. exists s, c. auto.
      * rewrite lookup_insert_ne in Hk by congruence. eauto.
    + intros h [Hext _]. exact Hext.
    + intros res h (Hext & Hres & Hkeys). split; [exact Hext|]. split; [exact Hres|].
      intros k Hk. apply Hkeys. destruct (decide (k = f)) as [->|Hne].
      * right. rewrite lookup_insert_eq. eauto.
      * rewrite lookup_insert_ne by congruence.
        destruct Hk as [Hk|Hk]; [|auto]. apply elem_of_cons in Hk as [->|Hk]; auto.
        congruence.
Qed.

Lemma triple_sample good :
  triple (ext h0) (_sample self (storage_object self) feature_subset) good
    (fun sampled h => ext h0 h /\
       (from_storage h0 features feature_subset sampled /\
        (sampling_strategy self = "joint"%string ->
         from_one_stored h0 features feature_subset sampled))).
Proof.
  unfold _sample. simpl. fold features.
  destruct (bool_decide (sampling_strategy self = "joint"%string)) eqn:Hj.
  - eapply triple_weaken; [apply triple_sample_marginals|auto|].
    intros sampled h [Hext H1]. split; [exact Hext|].
    split; [apply from_one_stored_from_storage; exact H1|auto].
  - apply bool_decide_eq_false in Hj.
    eapply triple_weaken;
      [apply (triple_sample_product_marginals good feature_subset ∅)|auto|].
    + intros k v Hk. rewrite lookup_empty in Hk. discriminate Hk.
    + intros sampled h (Hext & Hres & Hkeys). split; [exact Hext|]. split; [|tauto].
      intros k Hk. destruct (Hkeys k (or_introl Hk)) as [v Hv].
      destruct (Hres k v Hv) as (s & c & Hs & Hc & Hcv). exists s, c, v. auto.
Qed.

Let model_input := model_input h0 self feature_subset cx.

Lemma triple_impute_from :
  forall n predictions,
    triple (ext h0) (impute_from self feature_subset x_i n predictions) model_input
      (fun res h => ext h0 h /\ length res = (length predictions + n)%nat).
Proof.
  induction n as [|n IH]; intros predictions; simpl.
  - apply triple_ret. intros h Hext. split; [exact Hext|lia].
  - eapply triple_bind; [apply triple_sample|]. intros sampled. simpl.
    apply triple_pure. intros Hsampled.
    eapply triple_bind; [apply triple_copy; exact Hx|]. intros new. simpl.
    apply triple_pure. intros Hnew.
    eapply triple_bind; [apply triple_overwrite; exact Hnew|]. intros u. simpl.
    eapply triple_bind with (mid := fun _ h => ext h0 h).
    + eapply triple_weaken;
        [apply triple_predict_one; exact Hnew| |intros a h Hh; exact Hh].
      intros h (Hext & c1 & Hc1 & Himp). split; [exact Hext|].
      exists c1. split; [exact Hc1|]. exists sampled.
    split; [exact Hsampled|exact Himp].
    + intros prediction. simpl.
      eapply triple_weaken; [apply (IH (predictions ++ [prediction]))|auto|].
      intros res h [Hext Hlen]. split; [exact Hext|].
      rewrite Hlen, length_app. simpl. lia.
Qed.

End ImputeSpec.

Section ImputerSilence.
Import MarginalImputer ImputerMore.

Lemma silent_ret {A} (a : A) : silent (ret a).
Proof. intros h tr h' r [-> _]. auto. Qed.

Lemma silent_raise {A} (e : exn) : silent (raise (A := A) e).
Proof. intros h tr h' r [-> _]. auto. Qed.

Lemma silent_bind {A B} (m : M A) (f : A -> M B) :
  silent m -> (forall a, silent (f a)) -> silent (bindM m f).
Proof.
  intros Hm Hf h tr h' r Hrun. unfold bindM in Hrun.
  apply runs_bind in Hrun as (tr1 & [h1 r1] & tr2 & H1 & H2 & ->).
  apply Hm in H1 as [Ha Hb]. rewrite !flat_map_app, Ha, Hb. simpl in *.
  destruct r1 as [a|e]; [exact (Hf a _ _ _ _ H2)|].
  destruct H2 as [-> _]. auto.
Qed.

Lemma silent_randrange n : silent (randrange n).
Proof.
  intros h tr h' r. unfold randrange. destruct (n <=? 0); simpl.
  - intros [-> _]. auto.
  - intros (v & tr' & _ & -> & -> & _). auto.
Qed.

Lemma silent_index features rand_idx : silent (index features rand_idx).
Proof.
  unfold index. destruct (_ && _); [destruct (features !! _)|];
    auto using silent_ret, silent_raise.
Qed.

Lemma silent_copy d : silent (copy d).
Proof. intros h tr h' r. unfold copy. destruct (h !! d); intros [-> _]; auto. Qed.

Lemma silent_getitem d key : silent (getitem d key).
Proof.
  intros h tr h' r. unfold getitem.
  destruct (h !! d) as [c|]; [destruct (c !! key)|]; intros [-> _]; auto.
Qed.

Lemma silent_setitem_dict d key v : silent (setitem_dict d key v).
Proof. intros h tr h' r. unfold setitem_dict. destruct (h !! d); intros [-> _]; auto. Qed.

Lemma silent_project s : forall fs acc, silent (project s fs acc).
Proof.
  induction fs as [|f fs IH]; intros acc; simpl.
  - apply silent_ret.
  - apply silent_bind; [apply silent_getitem|]. intros v. apply IH.
Qed.

Lemma silent_sample_product features :
  forall fs acc, silent (_sample_product_marginals_from features fs acc).
Proof.
  induction fs as [|f fs IH]; intros acc; simpl.
  - apply silent_ret.
  - apply silent_bind; [apply silent_randrange|]. intros rand_idx.
    apply silent_bind; [apply silent_index|]. intros s.
    apply silent_bind; [apply silent_copy|]. intros s'.
    apply silent_bind; [apply silent_getitem|]. intros v. apply IH.
Qed.

Lemma silent_sample self storage fs : silent (_sample self storage fs).
Proof.
  unfold _sample. destruct (bool_decide _).
  - unfold _sample_marginals.
    apply silent_bind; [apply silent_randrange|]. intros rand_idx.
    apply silent_bind; [apply silent_index|]. intros s.
    apply silent_bind; [apply silent_copy|]. intros s'. apply silent_project.
  - apply silent_sample_product.
Qed.

Lemma silent_overwrite new sampled : forall fs, silent (overwrite new fs sampled).
Proof.
  induction fs as [|key rest IH]; simpl.
  - apply silent_ret.
  - destruct (sampled !! key); [|apply silent_raise].
    apply silent_bind; [apply silent_setitem_dict|]. intros u. exact IH.
Qed.

Lemma runs_bindM_ok {A B} (m : M A) (f : A -> M B) h tr h' b :
  runs any_answer (bindM m f h) tr (h', OK b) ->
  exists tr1 h1 a tr2,
    runs any_answer (m h) tr1 (h1, OK a) /\
    runs any_answer (f a h1) tr2 (h', OK b) /\ tr = tr1 ++ tr2.
Proof.
  unfold bindM. intros H.
  apply runs_bind in H as (tr1 & [h1 r1] & tr2 & H1 & H2 & ->). simpl in H2.
  destruct r1 as [a|e]; [|destruct H2 as [_ E]; discriminate E].
  exists tr1, h1, a, tr2. auto.
Qed.

(** The predictions returned are the model's answers, in order, one per
    iteration. *)
Lemma impute_from_predictions self fs x_i :
  forall n predictions h tr h' res,
    runs any_answer (impute_from self fs x_i n predictions h) tr (h', OK res) ->
    res = predictions ++ flat_map predicted tr /\
    length (flat_map predicted tr) = n /\
    length (flat_map handed tr) = n.
Proof.
  induction n as [|n IH]; intros predictions h tr h' res; simpl.
  - intros [-> E]. inversion E; subst. rewrite app_nil_r. auto.
  - intros H.
    apply runs_bindM_ok in H as (tr1 & h1 & sampled & tr2 & H1 & H2 & ->).
    apply runs_bindM_ok in H2 as (tr3 & h3 & new & tr4 & H3 & H4 & ->).
    apply runs_bindM_ok in H4 as (tr5 & h5 & u & tr6 & H5 & H6 & ->).
    apply runs_bindM_ok in H6 as (tr7 & h7 & prediction & tr8 & H7 & H8 & ->).
    apply silent_sample in H1 as [Ha1 Hb1].
    apply silent_copy in H3 as [Ha3 Hb3].
    apply silent_overwrite in H5 as [Ha5 Hb5].
    apply IH in H8 as (-> & Hlenp & Hlenh).
    unfold predict_one in H7. destruct (h5 !! new) as [c|];
      [|destruct H7 as [_ E]; discriminate E].
    simpl in H7. destruct H7 as ([c' ra] & tr' & _ & -> & -> & E).
    simpl in E. injection E as _ Er. rewrite <- Er.
    rewrite !flat_map_app, Ha1, Hb1, Ha3, Hb3, Ha5, Hb5. simpl.
    rewrite <- app_assoc. simpl. rewrite Hlenp, Hlenh. auto.
Qed.

End ImputerSilence.

(** X17. The dicts [impute] hands to the model: outside [feature_subset]
    each has the values of the caller's [x_i]; for each feature of the
    subset it has the value some stored feature vector has for that
    feature. This holds for both sampling strategies, whatever the
    generator and the model answer, and also on a call that raises later. *)
Theorem impute_hands_the_model_imputed_copies (self : MarginalImputer.t)
    (feature_subset : list string) (x_i : positive) (n_samples : Z)
    (h : gmap positive (gmap string Q)) (cx : gmap string Q)
    (tr : list (event MarginalImputer.impE))
    (h' : gmap positive (gmap string Q)) (r : result (list Q)) :
  h !! x_i = Some cx ->
  Forall (fun s => is_Some (h !! s))
    (MarginalImputer._storage_x (MarginalImputer.storage_object self)) ->
  runs MarginalImputer.any_answer
    (MarginalImputer.impute self feature_subset x_i n_samples h) tr (h', r) ->
  Forall (fun d : gmap string Q =>
            (forall k, k ∉ feature_subset -> d !! k = cx !! k) /\
            (forall k, k ∈ feature_subset ->
               exists s c v,
                 s ∈ MarginalImputer._storage_x (MarginalImputer.storage_object self) /\
                 h !! s = Some c /\ c !! k = Some v /\ d !! k = Some v))
         (flat_map ImputerMore.handed tr).
Proof.
  intros Hx Hst Hrun. rewrite Forall_forall in Hst.
  destruct (triple_impute_from h self feature_subset x_i cx Hx Hst
              (Z.to_nat n_samples) [] h tr h' r) as [Hev _];
    [unfold ImputerMore.ext; reflexivity|exact Hrun|].
  apply Forall_flat_map. eapply Forall_impl; [exact Hev|].
  intros ev Hgood. unfold ImputerMore.on_inputs in Hgood.
  eapply Forall_impl; [exact Hgood|].
  intros d (sampled & (Hfrom & _) & Himp). split.
  - intros k Hk. rewrite Himp, bool_decide_eq_false_2 by exact Hk. reflexivity.
  - intros k Hk. destruct (Hfrom k Hk) as (s & c & v & Hs & Hc & Hv & Hsv).
    exists s, c, v. repeat split; auto.
    rewrite Himp, bool_decide_eq_true_2 by exact Hk. exact Hsv.
Qed.

(** X18. With the ['joint'] strategy every dict handed to the model takes
    all its values for the features of the subset from one and the same
    stored feature vector. *)
Theorem joint_imputation_uses_one_stored_vector (self : MarginalImputer.t)
    (feature_subset : list string) (x_i : positive) (n_samples : Z)
    (h : gmap positive (gmap string Q)) (cx : gmap string Q)
    (tr : list (event MarginalImputer.impE))
    (h' : gmap positive (gmap string Q)) (r : result (list Q)) :
  MarginalImputer.sampling_strategy self = "joint"%string ->
  h !! x_i = Some cx ->
  Forall (fun s => is_Some (h !! s))
    (MarginalImputer._storage_x (MarginalImputer.storage_object self)) ->
  runs MarginalImputer.any_answer
    (MarginalImputer.impute self feature_subset x_i n_samples h) tr (h', r) ->
  Forall (fun d : gmap string Q =>
            exists s c,
              s ∈ MarginalImputer._storage_x (MarginalImputer.storage_object self) /\
              h !! s = Some c /\
              forall k, k ∈ feature_subset -> exists v, c !! k = Some v /\ d !! k = Some v)
         (flat_map ImputerMore.handed tr).
Proof.
  intros Hj Hx Hst Hrun. rewrite Forall_forall in Hst.
  destruct (triple_impute_from h self feature_subset x_i cx Hx Hst
              (Z.to_nat n_samples) [] h tr h' r) as [Hev _];
    [unfold ImputerMore.ext; reflexivity|exact Hrun|].
  apply Forall_flat_map. eapply Forall_impl; [exact Hev|].
  intros ev Hgood. unfold ImputerMore.on_inputs in Hgood.
  eapply Forall_impl; [exact Hgood|].
  intros d (sampled & (_ & Hone) & Himp).
  destruct (Hone Hj) as (s & c & Hs & Hc & Hall).
  exists s, c. split; [exact Hs|]. split; [exact Hc|].
  intros k Hk. destruct (Hall k Hk) as (v & Hv & Hsv). exists v. split; [exact Hv|].
  rewrite Himp, bool_decide_eq_true_2 by exact Hk. exact Hsv.
Qed.

(** X19. When [impute] returns, it returns one prediction per requested
    sample ([n_samples], none when that is not positive): the model's
    answers, in the order of the calls, the model having been called once
    per sample. *)
Theorem impute_returns_the_model_answers (self : MarginalImputer.t)
    (feature_subset : list string) (x_i : positive) (n_samples : Z)
    (h : gmap positive (gmap string Q))
    (tr : list (event MarginalImputer.impE))
    (h' : gmap positive (gmap string Q)) (predictions : list Q) :
  runs MarginalImputer.any_answer
    (MarginalImputer.impute self feature_subset x_i n_samples h) tr (h', OK predictions) ->
  predictions = flat_map ImputerMore.predicted tr /\
  length predictions = Z.to_nat n_samples /\
  length (flat_map ImputerMore.handed tr) = Z.to_nat n_samples.
Proof.
  intros Hrun. unfold MarginalImputer.impute in Hrun.
  apply impute_from_predictions in Hrun as (Hp & Hlenp & Hlenh). simpl in Hp.
  split; [exact Hp|]. split; [rewrite Hp; exact Hlenp|exact Hlenh].
Qed.

(** X20. With an empty storage, [impute] asked for at least one sample
    raises ValueError ([random.randrange(0)]) before it copies anything or
    calls the model, when the strategy is ['joint'] or the feature subset
    is not empty. *)
Theorem impute_on_empty_storage_raises (self : MarginalImputer.t)
    (feature_subset : list string) (x_i : positive) (n_samples : Z)
    (h : gmap positive (gmap string Q))
    (tr : list (event MarginalImputer.impE))
    (h' : gmap positive (gmap string Q)) (r : result (list Q)) :
  MarginalImputer._storage_x (MarginalImputer.storage_object self) = [] ->
  1 <= n_samples ->
  MarginalImputer.sampling_strategy self = "joint"%string \/ feature_subset <> [] ->
  runs MarginalImputer.any_answer
    (MarginalImputer.impute self feature_subset x_i n_samples h) tr (h', r) ->
  r = Exn ValueError /\ tr = [] /\ h' = h.
Proof.
  intros Hempty Hn Hcase. unfold MarginalImputer.impute.
  destruct (Z.to_nat n_samples) as [|n] eqn:En; [lia|]. simpl.
  unfold MarginalImputer._sample, MarginalImputer.get_data. simpl. rewrite Hempty.
  destruct (bool_decide (MarginalImputer.sampling_strategy self = "joint"%string)) eqn:Hj.
  - simpl. intros [-> E]. inversion E. auto.
  - apply bool_decide_eq_false in Hj. destruct Hcase as [Hc|Hc]; [contradiction|].
    destruct feature_subset as [|f fs]; [contradiction|].
    simpl. intros [-> E]. inversion E. auto.
Qed.

Lemma impute_on_empty_storage_raises_witness :
  MarginalImputer._storage_x
    (MarginalImputer.storage_object
       (MarginalImputer.Build "joint" (MarginalImputer.Storage [] []))) = [] /\
  1 <= 1 /\
  ("joint"%string = "joint"%string \/ ["a"%string] <> []) /\
  runs MarginalImputer.any_answer
    (MarginalImputer.impute
       (MarginalImputer.Build "joint" (MarginalImputer.Storage [] []))
       ["a"%string] 1%positive 1 ImputerExample.heap_before)
    [] (ImputerExample.heap_before, Exn ValueError) /\
  (Exn ValueError = Exn (A := list Q) ValueError /\
   @nil (event MarginalImputer.impE) = [] /\
   ImputerExample.heap_before = ImputerExample.heap_before).
Proof.
  assert (H1 : 1 <= 1) by lia.
  assert (H2 : "joint"%string = "joint"%string \/ ["a"%string] <> [])
    by (left; reflexivity).
  assert (Hrun : runs MarginalImputer.any_answer
    (MarginalImputer.impute
       (MarginalImputer.Build "joint" (MarginalImputer.Storage [] []))
       ["a"%string] 1%positive 1 ImputerExample.heap_before)
    [] (ImputerExample.heap_before, Exn ValueError))
    by (simpl; split; reflexivity).
  split; [reflexivity|]. split; [exact H1|]. split; [exact H2|]. split; [exact Hrun|].
  exact (impute_on_empty_storage_raises
           (MarginalImputer.Build "joint" (MarginalImputer.Storage [] []))
           _ _ _ _ _ _ _ eq_refl H1 H2 Hrun).
Defined.

(** The example imputer asked for two samples of feature ['a']. *)
Lemma impute_run_example :
  exists tr h',
    runs MarginalImputer.any_answer
      (MarginalImputer.impute ImputerExample.imputer ["a"%string] 1%positive 2
         ImputerExample.heap_before) tr (h', OK [5%Q; 5%Q]).
Proof.
  pose (t := MarginalImputer.impute ImputerExample.imputer ["a"%string] 1%positive 2
               ImputerExample.heap_before).
  pose proof (interp_runs MarginalImputer.any_answer ImputerExample.handler t
                (fun _ _ _ => I) tt) as Hrun.
  assert (E : (interp ImputerExample.handler t tt).1.1.2 = OK [5%Q; 5%Q])
    by (vm_compute; reflexivity).
  destruct (interp ImputerExample.handler t tt) as [[[h' r] w] tr].
  cbn [fst snd] in Hrun, E. subst r. exists tr, h'. exact Hrun.
Defined.

Lemma heap_before_stored :
  Forall (fun s => is_Some (ImputerExample.heap_before !! s))
    (MarginalImputer._storage_x (MarginalImputer.storage_object ImputerExample.imputer)).
Proof. repeat constructor. eexists. reflexivity. Defined.

Lemma impute_hands_the_model_imputed_copies_witness :
  exists tr h' cx,
    ImputerExample.heap_before !! 1%positive = Some cx /\
    Forall (fun s => is_Some (ImputerExample.heap_before !! s))
      (MarginalImputer._storage_x (MarginalImputer.storage_object ImputerExample.imputer)) /\
    runs MarginalImputer.any_answer
      (MarginalImputer.impute ImputerExample.imputer ["a"%string] 1%positive 2
         ImputerExample.heap_before) tr (h', OK [5%Q; 5%Q]) /\
    Forall (fun d : gmap string Q =>
              forall k, k ∉ ["a"%string] -> d !! k = cx !! k)
           (flat_map ImputerMore.handed tr).
Proof.
  destruct impute_run_example as (tr & h' & Hrun).
  eexists tr, h', _.
  assert (Hx : ImputerExample.heap_before !! 1%positive
               = Some (<["b"%string := 2%Q]> (<["a"%string := 1%Q]> ∅)))
    by reflexivity.
  split; [exact Hx|]. split; [exact heap_before_stored|]. split; [exact Hrun|].
  eapply Forall_impl;
    [exact (impute_hands_the_model_imputed_copies _ _ _ _ _ _ _ _ _
              Hx heap_before_stored Hrun)|].
  intros d [H _]. exact H.
Defined.

Lemma joint_imputation_uses_one_stored_vector_witness :
  exists tr h' cx,
    MarginalImputer.sampling_strategy ImputerExample.imputer = "joint"%string /\
    ImputerExample.heap_before !! 1%positive = Some cx /\
    Forall (fun s => is_Some (ImputerExample.heap_before !! s))
      (MarginalImputer._storage_x (MarginalImputer.storage_object ImputerExample.imputer)) /\
    runs MarginalImputer.any_answer
      (MarginalImputer.impute ImputerExample.imputer ["a"%string] 1%positive 2
         ImputerExample.heap_before) tr (h', OK [5%Q; 5%Q]) /\
    Forall (fun d : gmap string Q =>
              exists s c,
                s ∈ [2%positive] /\ ImputerExample.heap_before !! s = Some c /\
                forall k, k ∈ ["a"%string] -> exists v, c !! k = Some v /\ d !! k = Some v)
           (flat_map ImputerMore.handed tr).
Proof.
  destruct impute_run_example as (tr & h' & Hrun).
  eexists tr, h', _.
  assert (Hx : ImputerExample.heap_before !! 1%positive
               = Some (<["b"%string := 2%Q]> (<["a"%string := 1%Q]> ∅)))
    by reflexivity.
  split; [reflexivity|]. split; [exact Hx|]. split; [exact heap_before_stored|].
  split; [exact Hrun|].
  exact (joint_imputation_uses_one_stored_vector ImputerExample.imputer _ _ _ _ _ _ _ _
           eq_refl Hx heap_before_stored Hrun).
Defined.

Lemma impute_returns_the_model_answers_witness :
  exists tr h',
    runs MarginalImputer.any_answer
      (MarginalImputer.impute ImputerExample.imputer ["a"%string] 1%positive 2
         ImputerExample.heap_before) tr (h', OK [5%Q; 5%Q]) /\
    [5%Q; 5%Q] = flat_map ImputerMore.predicted tr /\
    length [5%Q; 5%Q] = Z.to_nat 2.
Proof.
  destruct impute_run_example as (tr & h' & Hrun).
  exists tr, h'. split; [exact Hrun|].
  destruct (impute_returns_the_model_answers _ _ _ _ _ _ _ _ Hrun) as (H1 & H2 & _).
  split; [exact H1|exact H2].
Defined.

(** ** Two more edge cases *)

(** X21. Without default values, past the warm-up: when the sampler
    returns no sample for the baseline, [explain_one] raises IndexError
    ([x_marginal[0]]) right there, without a call of the model or of a
    tracker, and leaves the estimator as it was. *)
Theorem baseline_without_a_sample_raises (self self' : Sage.IncrementalSAGE)
    (x_i : Sage.dict) (y_i : Q) (tr : list (event Sage.sageE))
    (r : result (gmap string Q)) :
  Sage.default_values self = None ->
  1 <= Sage.seen_samples self ->
  runs Sage.any_answer (Sage.explain_one self x_i y_i) tr (self', r) ->
  head (flat_map SageMore.samples tr) = Some [] ->
  r = Exn IndexError /\ self' = self /\
  flat_map SageEnv.model_inputs tr = [] /\ SageEnv.fed tr = [].
Proof.
  intros Hd Hseen. unfold Sage.explain_one.
  replace (Sage.seen_samples self <? 1) with false by lia.
  unfold Sage.contributions. rewrite Hd. simpl.
  intros (chain & tr1 & _ & -> & xm & tr2 & _ & -> & H) Hhead.
  simpl in Hhead. inversion Hhead; subst xm. simpl in H.
  destruct H as [-> E]. inversion E. auto.
Qed.

Lemma baseline_without_a_sample_raises_witness :
  exists tr self' r,
    Sage.default_values (Sage.set_seen_samples SageExample.sampling_estimator 1) = None /\
    1 <= Sage.seen_samples (Sage.set_seen_samples SageExample.sampling_estimator 1) /\
    runs Sage.any_answer
      (Sage.explain_one (Sage.set_seen_samples SageExample.sampling_estimator 1)
         SageExample.x_11 1%Q) tr (self', r) /\
    head (flat_map SageMore.samples tr) = Some [] /\
    r = Exn IndexError.
Proof.
  pose (t := Sage.explain_one (Sage.set_seen_samples SageExample.sampling_estimator 1)
               SageExample.x_11 1%Q).
  pose proof (interp_runs Sage.any_answer SageExample.handler t
                (fun _ _ _ => I) (SageExample.initial_world 0)) as Hrun.
  assert (Hhead : head (flat_map SageMore.samples
                    (interp SageExample.handler t (SageExample.initial_world 0)).2)
                  = Some []) by (vm_compute; reflexivity).
  destruct (interp SageExample.handler t (SageExample.initial_world 0))
    as [[[self' r] w] tr].
  cbn [fst snd] in Hrun, Hhead.
  assert (H1 : 1 <= Sage.seen_samples (Sage.set_seen_samples SageExample.sampling_estimator 1))
    by (simpl; lia).
  exists tr, self', r. split; [reflexivity|]. split; [exact H1|].
  split; [exact Hrun|]. split; [exact Hhead|].
  exact (proj1 (baseline_without_a_sample_raises
                  (Sage.set_seen_samples SageExample.sampling_estimator 1) self'
                  _ _ _ _ eq_refl H1 Hrun Hhead)).
Defined.

(** X22. With the product strategy and an empty feature subset, [impute]
    draws nothing from the generator and needs no storage: every call it
    makes is a call of the model on a copy of the caller's [x_i] as it was
    before the call. *)
Theorem impute_without_features_hands_copies (self : MarginalImputer.t)
    (x_i : positive) (n_samples : Z)
    (h : gmap positive (gmap string Q)) (cx : gmap string Q)
    (tr : list (event MarginalImputer.impE))
    (h' : gmap positive (gmap string Q)) (r : result (list Q)) :
  MarginalImputer.sampling_strategy self <> "joint"%string ->
  h !! x_i = Some cx ->
  runs MarginalImputer.any_answer
    (MarginalImputer.impute self [] x_i n_samples h) tr (h', r) ->
  Forall (fun ev => ImputerMore.handed ev = [cx]) tr.
Proof.
  intros Hj. unfold MarginalImputer.impute.
  generalize (@nil Q) as predictions. revert h tr.
  induction (Z.to_nat n_samples) as [|n IH]; intros h tr predictions Hx; simpl.
  - intros [-> _]. constructor.
  - unfold MarginalImputer.bindM at 1.
    unfold MarginalImputer._sample, MarginalImputer._sample_product_marginals.
    rewrite bool_decide_eq_false_2 by exact Hj. simpl.
    unfold MarginalImputer.bindM at 1. unfold MarginalImputer.copy at 1.
    rewrite Hx. simpl.
    unfold MarginalImputer.bindM at 1. simpl.
    unfold MarginalImputer.bindM at 1. unfold MarginalImputer.predict_one at 1.
    rewrite lookup_insert_eq. simpl.
    intros (answer & tr' & _ & -> & H). constructor; [reflexivity|].
    destruct (answer.2) as [p|e].
    + eapply IH; [|exact H].
      assert (Hne : fresh (dom h) <> x_i).
      { intros E. pose proof (is_fresh (dom h)) as Hf. rewrite E in Hf.
        apply Hf, elem_of_dom. eauto. }
      rewrite !lookup_insert_ne by exact Hne. exact Hx.
    + destruct H as [-> _]. constructor.
Qed.

Lemma impute_without_features_hands_copies_witness :
  exists tr h' r cx,
    "product"%string <> "joint"%string /\
    ImputerExample.heap_before !! 1%positive = Some cx /\
    runs MarginalImputer.any_answer
      (MarginalImputer.impute
         (MarginalImputer.Build "product" (MarginalImputer.Storage [] []))
         [] 1%positive 2 ImputerExample.heap_before) tr (h', r) /\
    Forall (fun ev => ImputerMore.handed ev = [cx]) tr.
Proof.
  pose (t := MarginalImputer.impute
               (MarginalImputer.Build "product" (MarginalImputer.Storage [] []))
               [] 1%positive 2 ImputerExample.heap_before).
  pose proof (interp_runs MarginalImputer.any_answer ImputerExample.handler t
                (fun _ _ _ => I) tt) as Hrun.
  destruct (interp ImputerExample.handler t tt) as [[[h' r] w] tr].
  cbn [fst snd] in Hrun.
  assert (Hj : "product"%string <> "joint"%string) by discriminate.
  assert (Hx : ImputerExample.heap_before !! 1%positive
               = Some (<["b"%string := 2%Q]> (<["a"%string := 1%Q]> ∅)))
    by reflexivity.
  eexists tr, h', r, _. split; [exact Hj|]. split; [exact Hx|]. split; [exact Hrun|].
  exact (impute_without_features_hands_copies
           (MarginalImputer.Build "product" (MarginalImputer.Storage [] []))
           _ _ _ _ _ _ _ Hj Hx Hrun).
Defined.
